(** * autokeras/keras_layers.py: the preprocessing layers, embedded and verified

    The file follows the Python module top to bottom.

    - Part I embeds the code: the tensor operations the two layers use
      (rank-2 tensors as rows of cells), the framework objects the layers
      hold ([StringLookup], the tokenizer) as an interface, the class
      [MultiCategoryEncoding] with its methods in state-passing style, the
      class [TextVectorizationWithTokenizer], the methods of both classes
      once more over a store of objects, and the top level of the module
      as a program over the global name space.
    - Part II proves the properties; Part III adds further ones.

    Python exceptions are values of [exn]; a computation that can raise
    returns a [result]. A method that may change its object returns the
    new object next to its result. *)

From Stdlib Require Import ZArith Floats.SpecFloat.
From stdpp Require Import base option list strings gmap.

Local Open Scope string_scope.
Local Open Scope list_scope.
Local Open Scope nat_scope.

(* ===================================================================== *)
(** * Part I: the embedding                                                *)
(* ===================================================================== *)

(** ** Exceptions and fallible computations *)

Inductive exn : Type :=
  | IndexError
  | ValueError
  | TypeError
  | InvalidArgumentError
  | AttributeError
  | NameError (name : string).

Inductive result (A : Type) : Type :=
  | Ok (a : A)
  | Raise (e : exn).
Arguments Ok {A} a.
Arguments Raise {A} e.

#[export] Instance result_ret : MRet result := λ A, Ok.
#[export] Instance result_bind : MBind result := λ A B f r,
  match r with Ok a => f a | Raise e => Raise e end.
#[export] Instance result_fmap : FMap result := λ A B f r,
  match r with Ok a => Ok (f a) | Raise e => Raise e end.

(** Run a fallible function over a list, left to right; the first
    exception wins. *)
Fixpoint traverse {A B} (f : A → result B) (l : list A) : result (list B) :=
  match l with
  | [] => Ok []
  | a :: l' => b ← f a; bs ← traverse f l'; Ok (b :: bs)
  end.

(** ** float32

    A float32 value is a [spec_float] with 24 bits of precision and
    maximal exponent 128. *)

Abbreviation float32 := spec_float.

Definition prec32 : Z := 24.
Definition emax32 : Z := 128.

(** [tf.math.is_nan] on one element. *)
Definition is_nan (x : float32) : bool :=
  match x with S754_nan => true | _ => false end.

(** The element [tf.zeros_like] fills with: positive zero. *)
Definition zero32 : float32 := S754_zero false.

(** [tf.cast(_, tf.float32)] on one int64 element: the nearest float32,
    ties to even. *)
Definition cast_float32 (n : Z) : float32 :=
  binary_normalize prec32 emax32 n 0 false.

(** ** Rank-2 tensors

    A batch is a rank-2 tensor: [rows] holds one list of cells per
    example, [width] is the size of the last axis (kept apart so that a
    batch of no examples still has a last dimension). *)

Record tensor (A : Type) : Type := Tensor { width : nat; rows : list (list A) }.
Arguments Tensor {A} width rows.
Arguments width {A} t.
Arguments rows {A} t.

Definition wf {A} (t : tensor A) : Prop :=
  Forall (λ r, length r = width t) (rows t).

Definition batch_size {A} (t : tensor A) : nat := length (rows t).

Definition tensor_map {A B} (f : A → B) (t : tensor A) : tensor B :=
  Tensor (width t) (map (map f) (rows t)).

Definition tensor_traverse {A B} (f : A → result B) (t : tensor A)
  : result (tensor B) :=
  rs ← traverse (traverse f) (rows t); Ok (Tensor (width t) rs).

(** [tf.zeros_like]. *)
Definition zeros_like (t : tensor float32) : tensor float32 :=
  tensor_map (λ _, zero32) t.

(** [tf.where(condition, x, y)], element by element. *)
Definition where_row {A} (c : list bool) (x y : list A) : list A :=
  zip_with (λ (b : bool) (xy : A * A), if b then xy.1 else xy.2) c (zip x y).

Definition tf_where {A} (c : tensor bool) (x y : tensor A) : tensor A :=
  Tensor (width c)
    (zip_with (λ cr (xy : list A * list A), where_row cr xy.1 xy.2)
       (rows c) (zip (rows x) (rows y))).

(** [tf.split(value, size_splits, axis=-1)]: one tensor per entry of
    [size_splits], cut from the last axis in order. There must be at least
    one size, and the sizes must add up to the last dimension. *)
Fixpoint split_rows {A} (sizes : list nat) (rs : list (list A))
  : list (tensor A) :=
  match sizes with
  | [] => []
  | k :: ks => Tensor k (map (take k) rs) :: split_rows ks (map (drop k) rs)
  end.

Definition tf_split {A} (value : tensor A) (size_splits : list nat)
  : result (list (tensor A)) :=
  if decide (size_splits ≠ [] ∧ sum_list size_splits = width value)
  then Ok (split_rows size_splits (rows value))
  else Raise InvalidArgumentError.

(** [tf.slice(x, [b0, b1], [s0, s1])]; a size of -1 takes the rest of the
    axis. *)
Definition slice_extent (begin : nat) (size : Z) (len : nat) : result nat :=
  if (size =? -1)%Z then
    if decide (begin ≤ len) then Ok (len - begin) else Raise InvalidArgumentError
  else if decide (0 ≤ size ∧ Z.of_nat begin + size ≤ Z.of_nat len)%Z
    then Ok (Z.to_nat size) else Raise InvalidArgumentError.

Definition tf_slice {A} (x : tensor A) (begin : nat * nat) (size : Z * Z)
  : result (tensor A) :=
  n0 ← slice_extent begin.1 size.1 (batch_size x);
  n1 ← slice_extent begin.2 size.2 (width x);
  Ok (Tensor n1 (map (λ r, take n1 (drop begin.2 r))
                     (take n0 (drop begin.1 (rows x))))).

(** [tf.keras.layers.Concatenate()(inputs)]: joins along the last axis.
    It needs at least one input, and all inputs must have the same batch
    size. *)
Definition concat2 {A} (a b : tensor A) : result (tensor A) :=
  if decide (batch_size a = batch_size b)
  then Ok (Tensor (width a + width b) (zip_with app (rows a) (rows b)))
  else Raise ValueError.

Fixpoint concat_from {A} (acc : tensor A) (ts : list (tensor A))
  : result (tensor A) :=
  match ts with
  | [] => Ok acc
  | t :: ts' => acc' ← concat2 acc t; concat_from acc' ts'
  end.

Definition Concatenate {A} (inputs : list (tensor A)) : result (tensor A) :=
  match inputs with
  | [] => Raise ValueError
  | t :: ts => concat_from t ts
  end.

(** [nest.flatten]: the leaves of a nested structure, left to right. *)
#[warnings="-register-all"] Inductive nest (A : Type) : Type :=
  | Leaf (a : A)
  | Seq (items : list (nest A)).
Arguments Leaf {A} a.
Arguments Seq {A} items.

Fixpoint flatten {A} (n : nest A) : list A :=
  match n with
  | Leaf a => [a]
  | Seq items =>
      (fix go (l : list (nest A)) : list A :=
         match l with
         | [] => []
         | x :: l' => flatten x ++ go l'
         end) items
  end.

(** [l[0]] on a Python list. *)
Definition first {A} (l : list A) : result A :=
  match l with
  | [] => Raise IndexError
  | a :: _ => Ok a
  end.

(** The cell of example [j] in column [i]. *)
Definition cell {A} (t : tensor A) (j i : nat) : option A :=
  r ← rows t !! j; r !! i.

(** Column [i] of a batch, as a tensor of width 1. *)
Definition column {A} (i : nat) (x : tensor A) : tensor A :=
  Tensor 1 (map (λ r, take 1 (drop i r)) (rows x)).

(** A tensor of width 1 with [b] examples. *)
Definition unit_column {A} (b : nat) (t : tensor A) : Prop :=
  width t = 1 ∧ batch_size t = b ∧ wf t.

(** Replacing NaN with 0 on one element. *)
Definition impute_value (v : float32) : float32 :=
  if is_nan v then zero32 else v.

(** ** The module constants *)

Definition INT : string := "int".
Definition NONE : string := "none".
Definition ONE_HOT : string := "one-hot".

(** ** What the framework provides

    The layers are written against TensorFlow and Keras. The operations
    they use whose code is not in the module are an interface: the
    conversion of a string to a float32 number, the
    [preprocessing.StringLookup] layer (an object with a vocabulary, so its
    methods return the new object), and the base class's constructor and
    configuration. *)

(** Values found in a layer configuration. *)
Inductive pyval : Type :=
  | PNone
  | PBool (b : bool)
  | PStr (s : string)
  | PList (l : list string).

Class Framework : Type := {
  (** [tf.strings.to_number(_, tf.float32)] on one element; a string that is
      no number raises. *)
  to_number : string → result float32;
  (** the state of a [preprocessing.StringLookup] object *)
  StringLookup : Type;
  (** [preprocessing.StringLookup()] *)
  sl_new : StringLookup;
  (** [layer.build(shape)] *)
  sl_build : StringLookup → list nat → StringLookup;
  (** [layer.adapt(dataset)], the dataset being its list of batches *)
  sl_adapt : StringLookup → list (tensor string) → StringLookup;
  (** [layer(inputs)] *)
  sl_call : StringLookup → tensor string → StringLookup * result (tensor Z);
  (** the vocabulary the layer has observed *)
  sl_vocabulary : StringLookup → list string;
  (** the state of the base class [preprocessing.PreprocessingLayer] *)
  Base : Type;
  (** [super().__init__] applied to the keyword arguments (that Keras
      rejects a keyword it does not know is left out) *)
  super_init : gmap string pyval → Base;
  (** [super().get_config()] *)
  super_get_config : Base → gmap string pyval;
}.

(** [dict(items)]: a later pair replaces an earlier one with the same key. *)
Definition dict {V} (items : list (string * V)) : gmap string V :=
  foldl (λ d kv, <[kv.1 := kv.2]> d) ∅ items.

(** [d.items()] *)
Definition items {V} (d : gmap string V) : list (string * V) := map_to_list d.

(** ** class MultiCategoryEncoding *)

Module MultiCategoryEncoding.
Section Methods.
Context `{Framework}.

Record t : Type := Self {
  base : Base;
  encoding : list string;
  encoding_layers : list (option StringLookup);
}.

Definition set_encoding_layers (self : t) (layers : list (option StringLookup)) : t :=
  {| base := base self; encoding := encoding self; encoding_layers := layers |}.

(** [self.encoding_layers.append(x)] *)
Definition append (self : t) (x : option StringLookup) : t :=
  set_encoding_layers self (encoding_layers self ++ [x]).

Definition __init__ (encoding : list string) (kwargs : gmap string pyval) : t :=
  let self := Self (super_init kwargs) encoding [] in
  foldl (λ self encoding,
           if String.eqb encoding NONE then append self None
           else if String.eqb encoding INT then append self (Some sl_new)
           else if String.eqb encoding ONE_HOT then append self None
           else self)
        self encoding.

Definition build (self : t) (input_shape : list nat) : t :=
  set_encoding_layers self
    (map (λ encoding_layer,
            match encoding_layer with
            | Some layer => Some (sl_build layer [1])
            | None => None
            end)
         (encoding_layers self)).

(** The branch of [call] for a column without an encoding layer. *)
Definition impute (input_node : tensor string) : result (tensor float32) :=
  number ← tensor_traverse to_number input_node;
  Ok (tf_where (tensor_map is_nan number) (zeros_like number) number).

(** The loop of [call] over [zip(split_inputs, self.encoding_layers)]; it
    returns the encoding layers as the calls leave them. *)
Fixpoint call_loop (split_inputs : list (tensor string))
    (encoding_layers : list (option StringLookup))
  : list (option StringLookup) * result (list (tensor float32)) :=
  match split_inputs, encoding_layers with
  | input_node :: split_inputs', encoding_layer :: encoding_layers' =>
      match encoding_layer with
      | None =>
          match impute input_node with
          | Ok imputed =>
              let '(layers, r) := call_loop split_inputs' encoding_layers' in
              (None :: layers, output_nodes ← r; Ok (imputed :: output_nodes))
          | Raise e => (encoding_layers, Raise e)
          end
      | Some layer =>
          let '(layer, r) := sl_call layer input_node in
          match r with
          | Ok indices =>
              let '(layers, r) := call_loop split_inputs' encoding_layers' in
              (Some layer :: layers,
               output_nodes ← r;
               Ok (tensor_map cast_float32 indices :: output_nodes))
          | Raise e => (Some layer :: encoding_layers', Raise e)
          end
      end
  | _, _ => (encoding_layers, Ok [])
  end.

Definition call (self : t) (inputs : nest (tensor string))
  : t * result (tensor float32) :=
  match first (flatten inputs) with
  | Raise e => (self, Raise e)
  | Ok input_nodes =>
      match tf_split input_nodes (replicate (length (encoding self)) 1) with
      | Raise e => (self, Raise e)
      | Ok split_inputs =>
          let '(layers, r) := call_loop split_inputs (encoding_layers self) in
          (set_encoding_layers self layers,
           output_nodes ← r;
           if decide (length output_nodes = 1) then first output_nodes
           else Concatenate output_nodes)
      end
  end.

(** The loop of [adapt] over [enumerate(self.encoding_layers)], from
    [index] on. *)
Fixpoint adapt_loop (index : nat) (encoding_layers : list (option StringLookup))
    (data : list (tensor string))
  : list (option StringLookup) * result unit :=
  match encoding_layers with
  | [] => ([], Ok ())
  | None :: encoding_layers' =>
      let '(layers, r) := adapt_loop (S index) encoding_layers' data in
      (None :: layers, r)
  | Some layer :: encoding_layers' =>
      match traverse (λ x, tf_slice x (0, index) (-1, 1)%Z) data with
      | Ok data_column =>
          let '(layers, r) := adapt_loop (S index) encoding_layers' data in
          (Some (sl_adapt layer data_column) :: layers, r)
      | Raise e => (encoding_layers, Raise e)
      end
  end.

Definition adapt (self : t) (data : list (tensor string)) : t * result unit :=
  let '(layers, r) := adapt_loop 0 (encoding_layers self) data in
  (set_encoding_layers self layers, r).

Definition get_config (self : t) : gmap string pyval :=
  let config := dict [("encoding", PList (encoding self))] in
  let base_config := super_get_config (base self) in
  dict (items base_config ++ items config).

(** The inherited [from_config]: the class applied to the entries of
    [config] as keyword arguments. [encoding] is the one named parameter,
    the other keys are [kwargs]. *)
Definition from_config (config : gmap string pyval) : result t :=
  match config !! "encoding" with
  | Some (PList encoding) => Ok (__init__ encoding (delete "encoding" config))
  | _ => Raise TypeError
  end.

(** *** Vocabulary of the properties *)

(** The encoding kinds [__init__] knows. *)
Definition valid (e : string) : Prop := e = NONE ∨ e = INT ∨ e = ONE_HOT.

#[export] Instance valid_dec e : Decision (valid e).
Proof. unfold valid. apply _. Defined.

(** What [__init__] appends for one entry of [encoding]. *)
Definition installed (e : string) : list (option StringLookup) :=
  if String.eqb e NONE then [None]
  else if String.eqb e INT then [Some sl_new]
  else if String.eqb e ONE_HOT then [None]
  else [].

(** The index in [encoding_layers] of the layer appended for entry [p]. *)
Definition layer_index (enc : list string) (p : nat) : nat :=
  length (filter valid (take p enc)).

Definition has_lookup (l : option StringLookup) : bool :=
  match l with Some _ => true | None => false end.

(** What [call] computes for one column and its encoding layer. *)
Definition encode_column (l : option StringLookup) (c : tensor string)
  : result (tensor float32) :=
  match l with
  | None => impute c
  | Some layer => tensor_map cast_float32 <$> (sl_call layer c).2
  end.

(** What [call] does with the encoded columns. *)
Definition join (output_nodes : list (tensor float32)) : result (tensor float32) :=
  if decide (length output_nodes = 1) then first output_nodes
  else Concatenate output_nodes.

(** The layers a program can hold: built by [__init__], then used. *)
Inductive reachable (enc : list string) (kwargs : gmap string pyval) : t → Prop :=
  | reach_init : reachable enc kwargs (__init__ enc kwargs)
  | reach_build self input_shape :
      reachable enc kwargs self → reachable enc kwargs (build self input_shape)
  | reach_call self inputs :
      reachable enc kwargs self → reachable enc kwargs (call self inputs).1
  | reach_adapt self data :
      reachable enc kwargs self → reachable enc kwargs (adapt self data).1.

(** What the properties ask of the framework's [StringLookup]: a call
    returns a tensor of the shape of its input, and leaves the vocabulary
    as it is. *)
Definition shape_preserving : Prop :=
  ∀ layer x layer' y, sl_call layer x = (layer', Ok y) →
    width y = width x ∧ map length (rows y) = map length (rows x).

Definition vocabulary_preserving : Prop :=
  ∀ layer x, sl_vocabulary (sl_call layer x).1 = sl_vocabulary layer.

End Methods.
End MultiCategoryEncoding.

(** ** class TextVectorizationWithTokenizer *)

(** The tokenizer object the layer is given (a BERT [FullTokenizer] in the
    docstring): the two methods the layer calls. *)
Record Tokenizer : Type := {
  tokenize : string → list string;
  convert_tokens_to_ids : list string → list Z;
}.

(** *** The tensors the layer builds

    The layer hands Python lists of ints to TensorFlow, which gives them an
    element type: float32 when there is no int at all, int32 when every
    int fits, int64 when every int fits that; an int outside int64 cannot
    be converted. *)

Inductive DType : Type := DT_FLOAT | DT_INT32 | DT_INT64.

#[export] Instance DType_eq_dec : EqDecision DType.
Proof. solve_decision. Defined.

Definition int32_range (v : Z) : Prop := (- 2 ^ 31 ≤ v < 2 ^ 31)%Z.
Definition int64_range (v : Z) : Prop := (- 2 ^ 63 ≤ v < 2 ^ 63)%Z.

#[export] Instance int32_range_dec v : Decision (int32_range v).
Proof. unfold int32_range. apply _. Defined.

#[export] Instance int64_range_dec v : Decision (int64_range v).
Proof. unfold int64_range. apply _. Defined.

Definition dtype_of (values : list Z) : result DType :=
  if decide (values = []) then Ok DT_FLOAT
  else if decide (Forall int32_range values) then Ok DT_INT32
  else if decide (Forall int64_range values) then Ok DT_INT64
  else Raise ValueError.

(** A tensor of rows of ints: ragged (rows of different lengths) or dense,
    with its element type. *)
Record tf_tensor : Type := TfTensor {
  is_ragged : bool;
  dtype : DType;
  to_list : list (list Z);
}.

(** [t.shape[0]] *)
Definition shape0 (t : tf_tensor) : nat := length (to_list t).

(** [tf.ragged.constant(pylist)] on a list of lists of ints. The result is
    ragged when the list has a row; for the empty list it is a dense
    tensor with no element. *)
Definition ragged_constant (pylist : list (list Z)) : result tf_tensor :=
  dt ← dtype_of (concat pylist);
  Ok (TfTensor (bool_decide (pylist ≠ [])) dt pylist).

(** What TensorFlow makes of a Python list of lists of ints given where a
    tensor is expected: a dense tensor, if the rows have one length. *)
Definition convert_to_tensor (pylist : list (list Z)) : result tf_tensor :=
  if decide (Forall (λ row, length row = length (default [] (head pylist))) pylist)
  then dt ← dtype_of (concat pylist); Ok (TfTensor false dt pylist)
  else Raise ValueError.

(** [tf.ones_like] and [tf.zeros_like]: the shape and the element type of
    the argument. *)
Definition ones (r : list (list Z)) : list (list Z) := map (map (λ _, 1%Z)) r.
Definition zeros (r : list (list Z)) : list (list Z) := map (map (λ _, 0%Z)) r.

Definition ones_like (t : tf_tensor) : tf_tensor :=
  TfTensor (is_ragged t) (dtype t) (ones (to_list t)).

Definition ragged_zeros_like (t : tf_tensor) : tf_tensor :=
  TfTensor (is_ragged t) (dtype t) (zeros (to_list t)).

(** [tf.concat([a, b], axis=-1)]: row by row. The two tensors must have
    one element type and as many rows; the result is ragged when one of
    them is. *)
Definition tf_concat (a b : tf_tensor) : result tf_tensor :=
  if decide (dtype a = dtype b ∧ shape0 a = shape0 b)
  then Ok (TfTensor (is_ragged a || is_ragged b) (dtype a)
             (zip_with app (to_list a) (to_list b)))
  else Raise InvalidArgumentError.

(** Every row filled with 0 to the length of the longest row. *)
Definition padded (r : list (list Z)) : tensor Z :=
  let w := max_list (map length r) in
  Tensor w (map (λ row, row ++ replicate (w - length row) 0%Z) r).

(** [t.to_tensor()]: a method of ragged tensors; a dense tensor has no such
    attribute. *)
Definition to_tensor (t : tf_tensor) : result (tensor Z) :=
  if is_ragged t then Ok (padded (to_list t)) else Raise AttributeError.

Module TextVectorizationWithTokenizer.

Record t : Type := Self { tokenizer : Tokenizer }.

Definition __init__ (tokenizer : Tokenizer) : t := Self tokenizer.

(** [build] only prints; writes to the standard output are not modelled. *)
Definition build (self : t) (input_shape : list nat) : t := self.

Definition encode_sentence (self : t) (s : string) : list Z :=
  let tokens := tokenize (tokenizer self) s in
  let tokens := tokens ++ ["[SEP]"] in
  convert_tokens_to_ids (tokenizer self) tokens.

(** [input] is the batch, one string per example. The Python list [cls] is
    converted to a tensor by each TensorFlow operation it is given to. *)
Definition bert_encode (self : t) (input : list string)
  : result (gmap string (tensor Z)) :=
  sentence1 ← ragged_constant (map (encode_sentence self) input);
  let cls :=
    replicate (shape0 sentence1)
      (convert_tokens_to_ids (tokenizer self) ["[CLS]"]) in
  input_word_ids ← (cls_tensor ← convert_to_tensor cls;
                    tf_concat cls_tensor sentence1);
  input_mask ← to_tensor (ones_like input_word_ids);
  type_cls ← ragged_zeros_like <$> convert_to_tensor cls;
  let type_s1 := ragged_zeros_like sentence1 in
  input_type_ids ← (tf_concat type_cls type_s1 ≫= to_tensor);
  word_ids ← to_tensor input_word_ids;
  let inputs :=
    dict [("input_word_ids", word_ids);
          ("input_mask", input_mask);
          ("input_type_ids", input_type_ids)] in
  Ok inputs.

Definition call (self : t) (inputs : list string)
  : result (gmap string (tensor Z)) :=
  bert_encode self inputs.

(** Ids that TensorFlow stores as int32: at least one, all in range. *)
Definition int32_ids (ids : list Z) : Prop :=
  ids ≠ [] ∧ Forall int32_range ids.

End TextVectorizationWithTokenizer.

(** ** The layers as objects

    Above, a method takes the layer as a value and returns the layer it
    leaves. In Python a layer is an object: [encoding_layers] is a list of
    references to [StringLookup] objects, a text layer refers to its
    tokenizer, and a method call changes objects in place. To tell which
    objects a call touches, the methods are written once more over a
    store of objects; [represents] relates the two forms. *)

Module Objects.
Section Objects.
Context `{Framework}.

Inductive object : Type :=
  | StringLookupObject (layer : StringLookup)
  | TokenizerObject (tokenizer : Tokenizer)
  | MultiCategoryEncodingObject (base : Base) (encoding : list string)
      (encoding_layers : list (option nat))
  | TextVectorizationWithTokenizerObject (tokenizer : nat).

(** The store holds the objects by reference; a new object gets the next
    reference. *)
Local Abbreviation store := (list object).

Definition new (σ : store) (o : object) : store * nat := (σ ++ [o], length σ).


(** From [σ] to [σ'] no object is added or removed, every object other
    than a [StringLookup] stays as it is, and a [StringLookup] becomes a
    [StringLookup] related by [R]. *)
Definition evolves (R : StringLookup → StringLookup → Prop) (σ σ' : store) : Prop :=
  length σ' = length σ ∧
  ∀ l, match σ !! l with
       | Some (StringLookupObject layer) =>
           ∃ layer', σ' !! l = Some (StringLookupObject layer') ∧ R layer layer'
       | o => σ' !! l = o
       end.

End Objects.

Abbreviation store := (list object).

End Objects.

Module MultiCategoryEncodingInPlace.
Section Methods.
Context `{Framework}.
Import Objects.

(** [self.encoding_layers.append(x)] *)
Definition append (σ : store) (self : nat) (x : option nat) : store :=
  match σ !! self with
  | Some (MultiCategoryEncodingObject base encoding encoding_layers) =>
      <[self := MultiCategoryEncodingObject base encoding (encoding_layers ++ [x])]> σ
  | _ => σ
  end.

Definition __init__ (σ : store) (encoding : list string) (kwargs : gmap string pyval)
  : store * nat :=
  let '(σ, self) :=
    new σ (MultiCategoryEncodingObject (super_init kwargs) encoding []) in
  (foldl (λ σ encoding,
            if String.eqb encoding NONE then append σ self None
            else if String.eqb encoding INT then
              let '(σ, layer) := new σ (StringLookupObject sl_new) in
              append σ self (Some layer)
            else if String.eqb encoding ONE_HOT then append σ self None
            else σ)
         σ encoding,
   self).

(** A method of the [StringLookup] object at [l] that changes its state. *)
Definition update (σ : store) (l : nat) (f : StringLookup → StringLookup) : store :=
  match σ !! l with
  | Some (StringLookupObject layer) => <[l := StringLookupObject (f layer)]> σ
  | _ => σ
  end.

Definition build (σ : store) (self : nat) (input_shape : list nat)
  : store * result unit :=
  match σ !! self with
  | Some (MultiCategoryEncodingObject _ _ encoding_layers) =>
      (foldl (λ σ encoding_layer,
                match encoding_layer with
                | Some l => update σ l (λ layer, sl_build layer [1])
                | None => σ
                end)
             σ encoding_layers,
       Ok ())
  | _ => (σ, Raise AttributeError)
  end.

Fixpoint call_loop (σ : store) (split_inputs : list (tensor string))
    (encoding_layers : list (option nat))
  : store * result (list (tensor float32)) :=
  match split_inputs, encoding_layers with
  | input_node :: split_inputs', encoding_layer :: encoding_layers' =>
      match encoding_layer with
      | None =>
          match MultiCategoryEncoding.impute input_node with
          | Ok imputed =>
              let '(σ, r) := call_loop σ split_inputs' encoding_layers' in
              (σ, output_nodes ← r; Ok (imputed :: output_nodes))
          | Raise e => (σ, Raise e)
          end
      | Some l =>
          match σ !! l with
          | Some (StringLookupObject layer) =>
              let '(layer, r) := sl_call layer input_node in
              let σ := <[l := StringLookupObject layer]> σ in
              match r with
              | Ok indices =>
                  let '(σ, r) := call_loop σ split_inputs' encoding_layers' in
                  (σ, output_nodes ← r;
                      Ok (tensor_map cast_float32 indices :: output_nodes))
              | Raise e => (σ, Raise e)
              end
          | _ => (σ, Raise TypeError)
          end
      end
  | _, _ => (σ, Ok [])
  end.

Definition call (σ : store) (self : nat) (inputs : nest (tensor string))
  : store * result (tensor float32) :=
  match σ !! self with
  | Some (MultiCategoryEncodingObject _ encoding encoding_layers) =>
      match first (flatten inputs) with
      | Raise e => (σ, Raise e)
      | Ok input_nodes =>
          match tf_split input_nodes (replicate (length encoding) 1) with
          | Raise e => (σ, Raise e)
          | Ok split_inputs =>
              let '(σ, r) := call_loop σ split_inputs encoding_layers in
              (σ, output_nodes ← r;
                  if decide (length output_nodes = 1) then first output_nodes
                  else Concatenate output_nodes)
          end
      end
  | _ => (σ, Raise AttributeError)
  end.

Fixpoint adapt_loop (σ : store) (index : nat) (encoding_layers : list (option nat))
    (data : list (tensor string)) : store * result unit :=
  match encoding_layers with
  | [] => (σ, Ok ())
  | None :: encoding_layers' => adapt_loop σ (S index) encoding_layers' data
  | Some l :: encoding_layers' =>
      match traverse (λ x, tf_slice x (0, index) (-1, 1)%Z) data with
      | Ok data_column =>
          adapt_loop (update σ l (λ layer, sl_adapt layer data_column))
            (S index) encoding_layers' data
      | Raise e => (σ, Raise e)
      end
  end.

Definition adapt (σ : store) (self : nat) (data : list (tensor string))
  : store * result unit :=
  match σ !! self with
  | Some (MultiCategoryEncodingObject _ _ encoding_layers) =>
      adapt_loop σ 0 encoding_layers data
  | _ => (σ, Raise AttributeError)
  end.

(** *** The two forms of a layer *)

Definition layer_at (σ : store) (l : option nat) (v : option StringLookup) : Prop :=
  match l, v with
  | None, None => True
  | Some l, Some layer => σ !! l = Some (StringLookupObject layer)
  | _, _ => False
  end.

(** The object at [self] is the layer [v]: its [StringLookup] objects are
    distinct objects in the states [v] holds. *)
Definition represents (σ : store) (self : nat) (v : MultiCategoryEncoding.t) : Prop :=
  ∃ encoding_layers,
    σ !! self
    = Some (MultiCategoryEncodingObject (MultiCategoryEncoding.base v)
              (MultiCategoryEncoding.encoding v) encoding_layers) ∧
    Forall2 (layer_at σ) encoding_layers (MultiCategoryEncoding.encoding_layers v) ∧
    NoDup (omap id encoding_layers).

(** The references a layer object holds. *)
Definition references (σ : store) (self : nat) : list nat :=
  match σ !! self with
  | Some (MultiCategoryEncodingObject _ _ encoding_layers) => omap id encoding_layers
  | _ => []
  end.

End Methods.
End MultiCategoryEncodingInPlace.

Module TextVectorizationWithTokenizerInPlace.
Section Methods.
Context `{Framework}.
Import Objects.

Definition __init__ (σ : store) (tokenizer : nat) : store * nat :=
  new σ (TextVectorizationWithTokenizerObject tokenizer).

Definition build (σ : store) (self : nat) (input_shape : list nat)
  : store * result unit :=
  (σ, Ok ()).

Definition call (σ : store) (self : nat) (inputs : list string)
  : store * result (gmap string (tensor Z)) :=
  match σ !! self with
  | Some (TextVectorizationWithTokenizerObject l) =>
      match σ !! l with
      | Some (TokenizerObject tokenizer) =>
          (σ, TextVectorizationWithTokenizer.call
                (TextVectorizationWithTokenizer.Self tokenizer) inputs)
      | _ => (σ, Raise AttributeError)
      end
  | _ => (σ, Raise AttributeError)
  end.

End Methods.
End TextVectorizationWithTokenizerInPlace.

(** ** The top level of the module

    Importing the module runs its top-level statements in order against
    the module's global names. A statement looks names up ([load]) and
    binds names ([store]); the body of a [def] is not run. *)

Module KerasLayers.

Definition builtins : gset string :=
  {[ "super"; "print"; "len"; "list"; "dict"; "zip"; "enumerate" ]}.

Definition py (A : Type) : Type := gset string → gset string * result A.

Definition load (name : string) : py unit := λ globals,
  if decide (name ∈ globals ∪ builtins) then (globals, Ok ())
  else (globals, Raise (NameError name)).

Definition store (name : string) : py unit := λ globals,
  ({[ name ]} ∪ globals, Ok ()).

#[export] Instance py_ret : MRet py := λ A a globals, (globals, Ok a).
#[export] Instance py_bind : MBind py := λ A B f a globals,
  match a globals with
  | (globals', Ok x) => f x globals'
  | (globals', Raise e) => (globals', Raise e)
  end.

(** The top-level statements of keras_layers.py, each with the name it
    binds. A class statement evaluates its decorator and its bases; an
    assignment evaluates its right-hand side, a dict display from left to
    right. *)
Definition toplevel : list (string * py unit) :=
  [ ("np", store "np");
    ("tf", store "tf");
    ("preprocessing", store "preprocessing");
    ("nest", store "nest");
    ("INT", store "INT");
    ("NONE", store "NONE");
    ("ONE_HOT", store "ONE_HOT");
    ("MultiCategoryEncoding",
       load "tf" ;; load "preprocessing" ;; store "MultiCategoryEncoding");
    ("CUSTOM_OBJECTS",
       load "MultiColumnCategoricalEncoding" ;; load "index_lookup" ;;
       store "CUSTOM_OBJECTS");
    ("TextVectorizationWithTokenizer",
       load "preprocessing" ;; store "TextVectorizationWithTokenizer") ].

(** Run the statements in order; an exception stops the run and is
    reported with the name the failing statement was defining. *)
Fixpoint exec (stmts : list (string * py unit)) (globals : gset string)
  : gset string * option (string * exn) :=
  match stmts with
  | [] => (globals, None)
  | (target, stmt) :: stmts' =>
      match stmt globals with
      | (globals', Ok _) => exec stmts' globals'
      | (globals', Raise e) => (globals', Some (target, e))
      end
  end.

(** [import autokeras.keras_layers]: the module's names, if the top level
    ran to its end. *)
Definition import_module : result (gset string) :=
  match exec toplevel ∅ with
  | (globals, None) => Ok globals
  | (_, Some (_, e)) => Raise e
  end.

(** [from autokeras.keras_layers import name] *)
Definition import_from (name : string) : result unit :=
  globals ← import_module;
  if decide (name ∈ globals) then Ok () else Raise AttributeError.

(** The names the statements of a module bind. *)
Definition defined_names (stmts : list (string * py unit)) : list string :=
  map fst stmts.

End KerasLayers.

(** ** A reference framework

    A small executable instance of the interface, used to run the layers
    on concrete batches. It stands in for TensorFlow and is not its
    implementation: numbers are decimal naturals or "nan"; the string
    lookup keeps the distinct strings it has seen, in order, and numbers
    them from 2, with 0 for the empty string and 1 for an unknown one. *)

Module Reference.

Fixpoint digits (acc : Z) (s : string) : option Z :=
  match s with
  | EmptyString => Some acc
  | String c s' =>
      let d := (Z.of_nat (Ascii.nat_of_ascii c) - 48)%Z in
      if ((0 <=? d) && (d <=? 9))%Z then digits (10 * acc + d)%Z s' else None
  end.

Definition parse_number (s : string) : result float32 :=
  if String.eqb s "nan" then Ok S754_nan
  else if String.eqb s "" then Raise InvalidArgumentError
  else match digits 0 s with
       | Some n => Ok (cast_float32 n)
       | None => Raise InvalidArgumentError
       end.

Record lookup_state : Type := Lookup { vocabulary : list string; built : bool }.

Fixpoint index_from (i : Z) (vocabulary : list string) (s : string) : Z :=
  match vocabulary with
  | [] => 1
  | v :: vocabulary' =>
      if String.eqb v s then i else index_from (i + 1) vocabulary' s
  end.

Definition index (l : lookup_state) (s : string) : Z :=
  if String.eqb s "" then 0%Z else index_from 2 (vocabulary l) s.

Definition cells (data : list (tensor string)) : list string :=
  concat (concat (map rows data)).

#[export] Instance framework : Framework := {|
  to_number := parse_number;
  StringLookup := lookup_state;
  sl_new := Lookup [] false;
  sl_build l _ := Lookup (vocabulary l) true;
  sl_adapt l data := Lookup (remove_dups (cells data)) (built l);
  sl_call l x := (Lookup (vocabulary l) true, Ok (tensor_map (index l) x));
  sl_vocabulary := vocabulary;
  Base := gmap string pyval;
  super_init kwargs :=
    kwargs ∪ {[ "name" := PStr "multi_category_encoding";
                "trainable" := PBool true; "dtype" := PStr "float32" ]};
  super_get_config b := b;
|}.

(** A tokenizer that splits at spaces and knows five words. *)
Fixpoint words (cur : string) (s : string) : list string :=
  match s with
  | EmptyString => if String.eqb cur "" then [] else [cur]
  | String c s' =>
      if Ascii.eqb c (Ascii.ascii_of_nat 32)
      then (if String.eqb cur "" then [] else [cur]) ++ words "" s'
      else words (cur +:+ String c EmptyString) s'
  end.

Definition token_id (tok : string) : Z :=
  index_from 100 ["[UNK]"; "[CLS]"; "[SEP]"; "hello"; "world"] tok.

Definition tokenizer : Tokenizer := {|
  tokenize := words "";
  convert_tokens_to_ids := map token_id;
|}.

(** Example data: a table with a numeric, a categorical and a one-hot
    column, and the layer for it after [adapt]. *)
Definition example_encoding : list string := ["none"; "int"; "one-hot"].

Definition example_batch : tensor string :=
  Tensor 3 [["1"; "b"; "7"]; ["nan"; "a"; "nan"]].

Definition example_layer : MultiCategoryEncoding.t :=
  (MultiCategoryEncoding.adapt
     (MultiCategoryEncoding.__init__ example_encoding ∅) [example_batch]).1.

(** The example layer as an object, next to a tokenizer and a text layer,
    in one store. *)
Definition example_store : Objects.store * nat * nat :=
  let '(σ, t) := Objects.new [] (Objects.TokenizerObject tokenizer) in
  let '(σ, text_layer) := TextVectorizationWithTokenizerInPlace.__init__ σ t in
  let '(σ, self) := MultiCategoryEncodingInPlace.__init__ σ example_encoding ∅ in
  ((MultiCategoryEncodingInPlace.adapt σ self [example_batch]).1, self, text_layer).

(** Example sentences, and what the text layer returns for them with the
    tokenizer above. *)
Definition example_sentences : list string := ["hello world"; "hello"].

Definition example_inputs : gmap string (tensor Z) :=
  dict [("input_word_ids", Tensor 4 [[101; 103; 104; 102]; [101; 103; 102; 0]]);
        ("input_mask", Tensor 4 [[1; 1; 1; 1]; [1; 1; 1; 0]]);
        ("input_type_ids", Tensor 4 [[0; 0; 0; 0]; [0; 0; 0; 0]])]%Z.

End Reference.

(* ===================================================================== *)
(** * Part II: properties                                                  *)
(* ===================================================================== *)

(** ** Fallible computations *)

Lemma bind_Ok {A B} (f : A → result B) (r : result A) (b : B) :
  r ≫= f = Ok b ↔ ∃ a, r = Ok a ∧ f a = Ok b.
Proof.
  destruct r as [a|e]; simpl.
  - split; [eauto | intros (a' & [= <-] & ?); done].
  - split; [done | intros (a' & ? & ?); done].
Qed.

Lemma fmap_Ok {A B} (f : A → B) (r : result A) (b : B) :
  f <$> r = Ok b ↔ ∃ a, r = Ok a ∧ b = f a.
Proof.
  destruct r as [a|e]; simpl.
  - split; [intros [= <-]; eauto | intros (a' & [= <-] & ->); done].
  - split; [done | intros (a' & ? & ?); done].
Qed.

Lemma traverse_Ok {A B} (f : A → result B) (l : list A) (bs : list B) :
  traverse f l = Ok bs ↔ Forall2 (λ a b, f a = Ok b) l bs.
Proof.
  revert bs. induction l as [|a l IH]; intros bs; simpl.
  - split; [intros [= <-]; constructor | by inversion 1].
  - rewrite bind_Ok. split.
    + intros (b & Hb & Hrest). apply bind_Ok in Hrest as (bs' & Hbs & [= <-]).
      constructor; [done | by apply IH].
    + inversion 1 as [|? b ? bs' Hb Hbs]; subst.
      exists b. split; [done|]. apply bind_Ok. exists bs'.
      split; [by apply IH | done].
Qed.

Lemma traverse_total {A B} (f : A → result B) (g : A → B) (l : list A) :
  Forall (λ a, f a = Ok (g a)) l → traverse f l = Ok (map g l).
Proof.
  intros Hl. apply traverse_Ok. induction Hl; constructor; done.
Qed.

(** ** Tensors *)

Lemma cell_tensor_map {A B} (f : A → B) (t : tensor A) j i :
  cell (tensor_map f t) j i = f <$> cell t j i.
Proof.
  unfold cell, tensor_map; simpl. rewrite list_lookup_fmap.
  destruct (rows t !! j) as [r|]; simpl; [|done].
  by rewrite list_lookup_fmap.
Qed.

Lemma where_row_nan (r : list float32) :
  where_row (map is_nan r) (map (λ _, zero32) r) r = map impute_value r.
Proof.
  unfold where_row. induction r as [|v r IH]; [done|].
  simpl. by rewrite IH.
Qed.

(** [tf.where(tf.math.is_nan(number), tf.zeros_like(number), number)]
    replaces the NaN elements of [number] by 0 and keeps the others. *)
Lemma tf_where_nan (number : tensor float32) :
  tf_where (tensor_map is_nan number) (zeros_like number) number
  = tensor_map impute_value number.
Proof.
  destruct number as [w rs]. unfold tf_where, zeros_like, tensor_map; simpl.
  f_equal. induction rs as [|r rs IH]; [done|].
  simpl. f_equal; [apply where_row_nan | exact IH].
Qed.

Lemma tensor_traverse_Ok {A B} (f : A → result B) (t : tensor A) (u : tensor B) :
  tensor_traverse f t = Ok u ↔
  width u = width t ∧ Forall2 (Forall2 (λ a b, f a = Ok b)) (rows t) (rows u).
Proof.
  unfold tensor_traverse. rewrite bind_Ok. split.
  - intros (rs & Hrs & [= <-]); simpl. split; [done|].
    apply traverse_Ok in Hrs. eapply Forall2_impl; [exact Hrs|].
    intros r r'; simpl. by rewrite traverse_Ok.
  - intros [Hw Hrs]. exists (rows u). split.
    + apply traverse_Ok. eapply Forall2_impl; [exact Hrs|].
      intros r r'; simpl. by rewrite traverse_Ok.
    + destruct u; simpl in *; by subst.
Qed.

Lemma tensor_traverse_cell {A B} (f : A → result B) (t : tensor A) (u : tensor B) j i a :
  tensor_traverse f t = Ok u → cell t j i = Some a →
  ∃ b, f a = Ok b ∧ cell u j i = Some b.
Proof.
  rewrite tensor_traverse_Ok. intros [_ Hrs]. unfold cell.
  destruct (rows t !! j) as [r|] eqn:Hr; simpl; [|done]. intros Ha.
  destruct (Forall2_lookup_l _ _ _ _ _ Hrs Hr) as (r' & Hr' & Hrr').
  destruct (Forall2_lookup_l _ _ _ _ _ Hrr' Ha) as (b & Hb & Hfb).
  exists b. rewrite Hr'; simpl. done.
Qed.

Lemma tensor_traverse_shape {A B} (f : A → result B) (t : tensor A) (u : tensor B) b :
  tensor_traverse f t = Ok u → unit_column b t → unit_column b u.
Proof.
  rewrite tensor_traverse_Ok. intros [Hw Hrs] (Hw1 & Hb & Hwf).
  unfold unit_column, batch_size, wf in *. split_and!.
  - congruence.
  - by rewrite <-(Forall2_length _ _ _ Hrs).
  - rewrite Hw. clear Hb Hw.
    induction Hrs as [|r r' rs rs' Hr _ IH]; [constructor|].
    inversion Hwf; subst. constructor; [|by apply IH].
    by rewrite <-(Forall2_length _ _ _ Hr).
Qed.

Lemma tensor_map_shape {A B} (f : A → B) (t : tensor A) b :
  unit_column b t → unit_column b (tensor_map f t).
Proof.
  intros (Hw & Hb & Hwf). unfold unit_column, batch_size, wf, tensor_map in *; simpl.
  split_and!; [done | by rewrite length_map |].
  apply Forall_fmap. eapply Forall_impl; [exact Hwf|].
  intros r; simpl. by rewrite length_map.
Qed.

Lemma sum_list_replicate_1 n : sum_list (replicate n 1) = n.
Proof. induction n; simpl; congruence. Qed.

Lemma split_rows_columns {A} (n k : nat) (rs : list (list A)) :
  split_rows (replicate n 1) (map (drop k) rs)
  = map (λ i, column i (Tensor (k + n) rs)) (seq k n).
Proof.
  revert k. induction n as [|n IH]; intros k; [done|].
  simpl. f_equal.
  - unfold column; simpl. f_equal. rewrite map_map. done.
  - rewrite map_map.
    rewrite (map_ext (λ r, drop 1 (drop k r)) (drop (S k))).
    + rewrite IH. apply map_ext. intros i. done.
    + intros r. rewrite drop_drop. f_equal. lia.
Qed.

(** [tf.split(x, [1] * n, axis=-1)] on a batch of width [n]: the [n]
    columns of the batch, in order. *)
Lemma tf_split_columns {A} (x : tensor A) (n : nat) :
  n ≠ 0 → width x = n →
  tf_split x (replicate n 1) = Ok (map (λ i, column i x) (seq 0 n)).
Proof.
  intros Hn Hw. unfold tf_split. rewrite sum_list_replicate_1.
  rewrite decide_True by (split; [by destruct n | done]). f_equal.
  pose proof (split_rows_columns n 0 (rows x)) as Hs.
  rewrite (map_ext (drop 0) id), map_id in Hs by done.
  rewrite Hs. apply map_ext. intros i. done.
Qed.

Lemma tf_split_width {A} (x : tensor A) (n : nat) :
  width x ≠ n → tf_split x (replicate n 1) = Raise InvalidArgumentError.
Proof.
  intros Hw. unfold tf_split. rewrite sum_list_replicate_1.
  rewrite decide_False; [done | by intros [_ ?]].
Qed.

(** [tf.split(x, [], axis=-1)]: no size, no split. *)
Lemma tf_split_no_size {A} (x : tensor A) :
  tf_split x [] = Raise InvalidArgumentError.
Proof. unfold tf_split. rewrite decide_False; [done | by intros [? _]]. Qed.

Lemma column_unit {A} (x : tensor A) i :
  wf x → i < width x → unit_column (batch_size x) (column i x).
Proof.
  intros Hwf Hi. unfold unit_column, batch_size, wf, column in *; simpl.
  split_and!; [done | by rewrite length_map |].
  apply Forall_fmap. eapply Forall_impl; [exact Hwf|].
  intros r Hr; simpl in *. rewrite length_take, length_drop. lia.
Qed.

Lemma cell_column {A} (x : tensor A) i j :
  cell (column i x) j 0 = cell x j i.
Proof.
  unfold cell, column; simpl. rewrite list_lookup_fmap.
  destruct (rows x !! j) as [r|]; simpl; [|done].
  rewrite lookup_take_lt by lia. rewrite lookup_drop. f_equal. lia.
Qed.

(** ** Concatenation of columns *)

Lemma concat2_unit {A} (acc o : tensor A) b :
  wf acc → batch_size acc = b → unit_column b o →
  ∃ t, concat2 acc o = Ok t ∧ width t = width acc + 1 ∧ batch_size t = b ∧ wf t ∧
       (∀ j i, i < width acc → cell t j i = cell acc j i) ∧
       (∀ j, cell t j (width acc) = cell o j 0).
Proof.
  intros Hwf Hb (Hw & Hbo & Hwfo). unfold concat2.
  rewrite decide_True by congruence.
  eexists; split; [done|]. unfold batch_size, wf, cell in *; simpl.
  split_and!.
  - by rewrite Hw.
  - rewrite length_zip_with. lia.
  - apply Forall_forall. intros r Hr.
    apply list_elem_of_lookup in Hr as [j Hj].
    rewrite lookup_zip_with in Hj.
    destruct (rows acc !! j) as [ra|] eqn:Ha; simpl in Hj; [|done].
    destruct (rows o !! j) as [ro|] eqn:Ho; simpl in Hj; [|done].
    injection Hj as <-. rewrite length_app.
    rewrite (Forall_lookup_1 _ _ _ _ Hwf Ha), (Forall_lookup_1 _ _ _ _ Hwfo Ho).
    by rewrite Hw.
  - intros j i Hi. rewrite lookup_zip_with.
    destruct (rows acc !! j) as [ra|] eqn:Ha; simpl; [|done].
    destruct (rows o !! j) as [ro|] eqn:Ho; simpl.
    + apply lookup_app_l. by rewrite (Forall_lookup_1 _ _ _ _ Hwf Ha).
    + apply lookup_lt_Some in Ha. apply lookup_ge_None in Ho. lia.
  - intros j. rewrite lookup_zip_with.
    destruct (rows acc !! j) as [ra|] eqn:Ha; simpl.
    + destruct (rows o !! j) as [ro|] eqn:Ho; simpl.
      * rewrite lookup_app_r by (by rewrite (Forall_lookup_1 _ _ _ _ Hwf Ha)).
        rewrite (Forall_lookup_1 _ _ _ _ Hwf Ha). by rewrite Nat.sub_diag.
      * apply lookup_lt_Some in Ha. apply lookup_ge_None in Ho. lia.
    + destruct (rows o !! j) as [ro|] eqn:Ho; simpl; [|done].
      apply lookup_lt_Some in Ho. apply lookup_ge_None in Ha. lia.
Qed.

Lemma concat_from_cells {A} (ts : list (tensor A)) (acc : tensor A) b :
  wf acc → batch_size acc = b → Forall (unit_column b) ts →
  ∃ t, concat_from acc ts = Ok t ∧ width t = width acc + length ts ∧
       batch_size t = b ∧ wf t ∧
       (∀ j i, i < width acc → cell t j i = cell acc j i) ∧
       (∀ j i o, ts !! i = Some o → cell t j (width acc + i) = cell o j 0).
Proof.
  revert acc. induction ts as [|o ts IH]; intros acc Hwf Hb Hts; simpl.
  - exists acc. split_and!; [done | lia | done | done | done | intros j i o Ho; done].
  - inversion Hts as [|? ? Ho Hts']; subst.
    destruct (concat2_unit acc o _ Hwf eq_refl Ho)
      as (t1 & -> & Hw1 & Hb1 & Hwf1 & Hold1 & Hnew1); simpl.
    destruct (IH t1 Hwf1 Hb1 Hts')
      as (t & -> & Hw & Hbt & Hwft & Hold & Hnew).
    exists t. split_and!; [done | lia | done | done | |].
    + intros j i Hi. rewrite Hold by lia. by apply Hold1.
    + intros j [|i] o' Ho'; simpl in Ho'.
      * injection Ho' as <-. rewrite Nat.add_0_r, Hold by lia. apply Hnew1.
      * replace (width acc + S i) with (width t1 + i) by lia. by apply Hnew.
Qed.

(** What [call] returns for its encoded columns: a batch with one column
    per encoded column, in order. *)
Lemma join_cells `{Framework} (outs : list (tensor float32)) b :
  outs ≠ [] → Forall (unit_column b) outs →
  ∃ t, MultiCategoryEncoding.join outs = Ok t ∧ width t = length outs ∧
       batch_size t = b ∧ wf t ∧
       (∀ j i o, outs !! i = Some o → cell t j i = cell o j 0).
Proof.
  intros Hne Houts. unfold MultiCategoryEncoding.join.
  destruct outs as [|o [|o' outs]]; [done | |].
  - inversion Houts as [|? ? (Hw & Hb & Hwf) _]; subst. simpl.
    exists o. split_and!; [done | done | done | done |].
    intros j [|i] o'; simpl; [by intros [= <-] | done].
  - rewrite decide_False by (simpl; lia). simpl.
    inversion Houts as [|? ? Ho Hrest]; subst.
    pose proof Ho as (Hw & Hb & Hwf).
    destruct (concat_from_cells (o' :: outs) o b Hwf Hb Hrest)
      as (t & Ht & Hwt & Hbt & Hwft & Hold & Hnew).
    simpl in Ht. exists t. split_and!; [done | | done | done |].
    + rewrite Hwt, Hw. done.
    + intros j [|i] o''; simpl.
      * intros [= <-]. apply Hold. lia.
      * intros Hi. specialize (Hnew j i o'' Hi). by rewrite Hw in Hnew.
Qed.

(** ** MultiCategoryEncoding *)

Module MultiCategoryEncodingProofs.
Import MultiCategoryEncoding.

Section Properties.
Context `{Framework}.

(** *** The constructor *)

Lemma installed_NONE : installed NONE = [None].
Proof. done. Qed.

Lemma installed_INT : installed INT = [Some sl_new].
Proof. done. Qed.

Lemma installed_ONE_HOT : installed ONE_HOT = [None].
Proof. done. Qed.

Lemma installed_invalid e : ¬ valid e → installed e = [].
Proof.
  intros Hv. unfold installed.
  destruct (String.eqb_spec e NONE) as [->|_]; [destruct Hv; left; done|].
  destruct (String.eqb_spec e INT) as [->|_]; [destruct Hv; right; left; done|].
  destruct (String.eqb_spec e ONE_HOT) as [->|_]; [destruct Hv; right; right; done|].
  done.
Qed.

Lemma installed_valid e : valid e → length (installed e) = 1.
Proof. by intros [->| [->| ->]]. Qed.

Lemma init_loop (enc : list string) (self : t) :
  let self' :=
    foldl (λ self encoding,
             if String.eqb encoding NONE then append self None
             else if String.eqb encoding INT then append self (Some sl_new)
             else if String.eqb encoding ONE_HOT then append self None
             else self) self enc in
  base self' = base self ∧ encoding self' = encoding self ∧
  encoding_layers self' = encoding_layers self ++ concat (map installed enc).
Proof.
  revert self. induction enc as [|e enc IH]; intros self; simpl.
  - by rewrite app_nil_r.
  - unfold installed.
    destruct (String.eqb e NONE); [|destruct (String.eqb e INT);
      [|destruct (String.eqb e ONE_HOT)]];
      match goal with |- context [foldl ?f ?s enc] =>
        destruct (IH s) as (Hb & He & Hl) end;
      simpl in *; rewrite Hb, He, Hl, <-?app_assoc; done.
Qed.

Lemma init_base enc kwargs : base (__init__ enc kwargs) = super_init kwargs.
Proof. unfold __init__. by destruct (init_loop enc (Self (super_init kwargs) enc [])) as (-> & _). Qed.

Lemma init_encoding enc kwargs : encoding (__init__ enc kwargs) = enc.
Proof. unfold __init__. by destruct (init_loop enc (Self (super_init kwargs) enc [])) as (_ & -> & _). Qed.

Lemma init_layers enc kwargs :
  encoding_layers (__init__ enc kwargs) = concat (map installed enc).
Proof. unfold __init__. by destruct (init_loop enc (Self (super_init kwargs) enc [])) as (_ & _ & ->). Qed.

Lemma installed_filter (enc : list string) :
  concat (map installed (filter valid enc)) = concat (map installed enc).
Proof.
  induction enc as [|e enc IH]; [done|].
  rewrite filter_cons. destruct (decide (valid e)) as [Hv|Hv]; simpl.
  - by rewrite IH.
  - by rewrite IH, (installed_invalid e Hv).
Qed.

Lemma installed_length (enc : list string) :
  length (concat (map installed enc)) = length (filter valid enc).
Proof.
  induction enc as [|e enc IH]; [done|].
  rewrite filter_cons. simpl. rewrite length_app, IH.
  destruct (decide (valid e)) as [Hv|Hv]; simpl.
  - by rewrite (installed_valid e Hv).
  - by rewrite (installed_invalid e Hv).
Qed.

Lemma installed_lookup (enc : list string) p e :
  enc !! p = Some e → valid e →
  installed e = [] ∨
  ∃ l, installed e = [l] ∧ concat (map installed enc) !! layer_index enc p = Some l.
Proof.
  intros Hp Hv. right.
  destruct (installed e) as [|l [|l' ?]] eqn:He;
    [pose proof (installed_valid e Hv) as Hlen; rewrite He in Hlen; done | |
     pose proof (installed_valid e Hv) as Hlen; rewrite He in Hlen; done].
  exists l. split; [done|].
  unfold layer_index. rewrite <-installed_length.
  remember (length (concat (map installed (take p enc)))) as k eqn:Hk.
  rewrite <-(take_drop_middle enc p e Hp).
  rewrite List.map_app, concat_app; simpl.
  rewrite lookup_app_r by lia. rewrite Hk, Nat.sub_diag, He. done.
Qed.

Lemma valid_filter (enc : list string) : Forall valid enc → filter valid enc = enc.
Proof.
  induction 1 as [|e enc Hv _ IH]; [done|].
  rewrite filter_cons, decide_True by done. by rewrite IH.
Qed.

Lemma invalid_filter_length (enc : list string) :
  ¬ Forall valid enc → length (filter valid enc) < length enc.
Proof.
  induction enc as [|e enc IH]; intros Hn; [destruct Hn; constructor|].
  rewrite filter_cons. pose proof (length_filter valid enc) as Hle.
  destruct (decide (valid e)) as [Hv|Hv]; simpl; [|lia].
  assert (length (filter valid enc) < length enc); [|lia].
  apply IH. intros Hall. apply Hn. by constructor.
Qed.

Lemma layer_index_valid (enc : list string) p :
  Forall valid enc → p ≤ length enc → layer_index enc p = p.
Proof.
  intros Hall Hp. unfold layer_index.
  rewrite valid_filter by (by apply Forall_take). rewrite length_take. lia.
Qed.

(** *** The loop of [call] *)

Lemma call_loop_result (cols : list (tensor string)) (layers : list (option StringLookup)) :
  (call_loop cols layers).2
  = traverse (λ cl, encode_column cl.2 cl.1) (zip cols layers).
Proof.
  revert layers. induction cols as [|c cols IH]; intros layers; [by destruct layers|].
  destruct layers as [|[layer|] layers]; simpl; [done | |].
  - destruct (sl_call layer c) as [layer' [indices|e]]; simpl; [|done].
    rewrite <-IH. by destruct (call_loop cols layers) as [ls [outs|e]].
  - destruct (impute c) as [imputed|e]; simpl; [|done].
    rewrite <-IH. by destruct (call_loop cols layers) as [ls [outs|e]].
Qed.

Lemma call_loop_pattern (cols : list (tensor string)) (layers : list (option StringLookup)) :
  map has_lookup (call_loop cols layers).1 = map has_lookup layers.
Proof.
  revert layers. induction cols as [|c cols IH]; intros layers; [by destruct layers|].
  destruct layers as [|[layer|] layers]; simpl; [done | |].
  - destruct (sl_call layer c) as [layer' [indices|e]]; simpl; [|done].
    specialize (IH layers). destruct (call_loop cols layers) as [ls r]; simpl in *.
    by rewrite IH.
  - destruct (impute c) as [imputed|e]; simpl; [|done].
    specialize (IH layers). destruct (call_loop cols layers) as [ls r]; simpl in *.
    by rewrite IH.
Qed.

(** The vocabularies of the encoding layers, position by position. *)
Lemma call_loop_vocabulary (cols : list (tensor string)) (layers : list (option StringLookup)) :
  vocabulary_preserving →
  map (fmap sl_vocabulary) (call_loop cols layers).1 = map (fmap sl_vocabulary) layers.
Proof.
  intros Hvoc.
  revert layers. induction cols as [|c cols IH]; intros layers; [by destruct layers|].
  destruct layers as [|[layer|] layers]; simpl; [done | |].
  - pose proof (Hvoc layer c) as Hl.
    destruct (sl_call layer c) as [layer' [indices|e]]; simpl in *; [|by rewrite Hl].
    specialize (IH layers). destruct (call_loop cols layers) as [ls r]; simpl in *.
    by rewrite IH, Hl.
  - destruct (impute c) as [imputed|e]; simpl; [|done].
    specialize (IH layers). destruct (call_loop cols layers) as [ls r]; simpl in *.
    by rewrite IH.
Qed.

(** *** [call] as a whole *)

Lemma call_result (self : t) (inputs : nest (tensor string)) (x : tensor string) :
  first (flatten inputs) = Ok x → width x = length (encoding self) →
  encoding self ≠ [] →
  (call self inputs).2
  = output_nodes ← traverse (λ cl, encode_column cl.2 cl.1)
                      (zip (map (λ i, column i x) (seq 0 (length (encoding self))))
                           (encoding_layers self));
    join output_nodes.
Proof.
  intros Hx Hw Hne. unfold call. rewrite Hx.
  rewrite (tf_split_columns x (length (encoding self)))
    by (by destruct (encoding self)).
  rewrite <-call_loop_result.
  by destruct (call_loop _ (encoding_layers self)) as [ls r].
Qed.

Lemma call_no_input (self : t) (inputs : nest (tensor string)) :
  flatten inputs = [] → call self inputs = (self, Raise IndexError).
Proof. intros Hx. unfold call. by rewrite Hx. Qed.

Lemma call_wrong_width (self : t) (inputs : nest (tensor string)) (x : tensor string) :
  first (flatten inputs) = Ok x → width x ≠ length (encoding self) →
  call self inputs = (self, Raise InvalidArgumentError).
Proof.
  intros Hx Hw. unfold call. rewrite Hx. by rewrite (tf_split_width x _ Hw).
Qed.

(** With an empty [encoding] there is nothing to split into. *)
Lemma call_empty_encoding (self : t) (inputs : nest (tensor string)) (x : tensor string) :
  first (flatten inputs) = Ok x → encoding self = [] →
  call self inputs = (self, Raise InvalidArgumentError).
Proof.
  intros Hx He. unfold call. rewrite Hx, He. cbn [length replicate].
  by rewrite tf_split_no_size.
Qed.

Lemma call_Ok_encoding (self : t) (inputs : nest (tensor string)) out :
  (call self inputs).2 = Ok out → encoding self ≠ [].
Proof.
  intros Hcall He. unfold call in Hcall.
  destruct (first (flatten inputs)) as [x|e] eqn:Hx; [|done].
  rewrite He in Hcall. cbn [length replicate] in Hcall.
  by rewrite tf_split_no_size in Hcall.
Qed.

Lemma call_encoding (self : t) inputs : encoding (call self inputs).1 = encoding self.
Proof.
  unfold call. destruct (first (flatten inputs)) as [x|e]; [|done].
  destruct (tf_split x _) as [cols|e]; [|done].
  by destruct (call_loop cols (encoding_layers self)) as [ls r].
Qed.

Lemma call_base (self : t) inputs : base (call self inputs).1 = base self.
Proof.
  unfold call. destruct (first (flatten inputs)) as [x|e]; [|done].
  destruct (tf_split x _) as [cols|e]; [|done].
  by destruct (call_loop cols (encoding_layers self)) as [ls r].
Qed.

Lemma call_pattern (self : t) inputs :
  map has_lookup (encoding_layers (call self inputs).1)
  = map has_lookup (encoding_layers self).
Proof.
  unfold call. destruct (first (flatten inputs)) as [x|e]; [|done].
  destruct (tf_split x _) as [cols|e]; [|done].
  pose proof (call_loop_pattern cols (encoding_layers self)) as Hp.
  by destruct (call_loop cols (encoding_layers self)) as [ls r].
Qed.

Lemma call_vocabulary (self : t) inputs :
  vocabulary_preserving →
  map (fmap sl_vocabulary) (encoding_layers (call self inputs).1)
  = map (fmap sl_vocabulary) (encoding_layers self).
Proof.
  intros Hvoc. unfold call. destruct (first (flatten inputs)) as [x|e]; [|done].
  destruct (tf_split x _) as [cols|e]; [|done].
  pose proof (call_loop_vocabulary cols (encoding_layers self) Hvoc) as Hp.
  by destruct (call_loop cols (encoding_layers self)) as [ls r].
Qed.

(** *** [build] and [adapt] *)

Lemma build_pattern (self : t) input_shape :
  map has_lookup (encoding_layers (build self input_shape))
  = map has_lookup (encoding_layers self).
Proof.
  unfold build; simpl. rewrite map_map. apply map_ext. by intros [layer|].
Qed.

Lemma adapt_loop_pattern (layers : list (option StringLookup)) index data :
  map has_lookup (adapt_loop index layers data).1 = map has_lookup layers.
Proof.
  revert index. induction layers as [|[layer|] layers IH]; intros index; simpl; [done | |].
  - destruct (traverse _ data) as [data_column|e]; [|done].
    specialize (IH (S index)).
    destruct (adapt_loop (S index) layers data) as [ls r]; simpl in *. by rewrite IH.
  - specialize (IH (S index)).
    destruct (adapt_loop (S index) layers data) as [ls r]; simpl in *. by rewrite IH.
Qed.

Lemma adapt_pattern (self : t) data :
  map has_lookup (encoding_layers (adapt self data).1)
  = map has_lookup (encoding_layers self).
Proof.
  unfold adapt. pose proof (adapt_loop_pattern (encoding_layers self) 0 data) as Hp.
  by destruct (adapt_loop 0 (encoding_layers self) data) as [ls r].
Qed.

Lemma adapt_encoding (self : t) data : encoding (adapt self data).1 = encoding self.
Proof. unfold adapt. by destruct (adapt_loop 0 (encoding_layers self) data). Qed.

Lemma adapt_base (self : t) data : base (adapt self data).1 = base self.
Proof. unfold adapt. by destruct (adapt_loop 0 (encoding_layers self) data). Qed.

(** *** What holds of every layer a program can hold *)

Lemma reachable_invariant enc kwargs (self : t) :
  reachable enc kwargs self →
  base self = super_init kwargs ∧ encoding self = enc ∧
  map has_lookup (encoding_layers self) = map has_lookup (concat (map installed enc)).
Proof.
  induction 1 as [|self shape _ (Hb & He & Hl)|self inputs _ (Hb & He & Hl)
                   |self data _ (Hb & He & Hl)].
  - by rewrite init_base, init_encoding, init_layers.
  - by rewrite build_pattern.
  - by rewrite call_base, call_encoding, call_pattern.
  - by rewrite adapt_base, adapt_encoding, adapt_pattern.
Qed.

Lemma pattern_length (l1 l2 : list (option StringLookup)) :
  map has_lookup l1 = map has_lookup l2 → length l1 = length l2.
Proof. intros Hp. by rewrite <-(length_map has_lookup l1), Hp, length_map. Qed.

Lemma pattern_lookup (l1 l2 : list (option StringLookup)) i a :
  map has_lookup l1 = map has_lookup l2 → l2 !! i = Some a →
  ∃ b, l1 !! i = Some b ∧ has_lookup b = has_lookup a.
Proof.
  intros Hp Ha.
  assert (map has_lookup l1 !! i = Some (has_lookup a)) as Hi.
  { rewrite Hp. change (map has_lookup l2) with (has_lookup <$> l2).
    by rewrite list_lookup_fmap, Ha. }
  change (map has_lookup l1) with (has_lookup <$> l1) in Hi.
  rewrite list_lookup_fmap in Hi.
  destruct (l1 !! i) as [b|]; simpl in Hi; [|done].
  exists b. split; [done|]. by injection Hi.
Qed.

(** With valid entries, the layer at position [i] of a reachable layer is a
    [StringLookup] exactly when entry [i] is "int". *)
Lemma reachable_layer enc kwargs (self : t) i e :
  Forall valid enc → reachable enc kwargs self → enc !! i = Some e →
  ∃ l, encoding_layers self !! i = Some l ∧
       (e = INT → ∃ layer, l = Some layer) ∧ (e ≠ INT → l = None).
Proof.
  intros Hall Hr He. destruct (reachable_invariant _ _ _ Hr) as (_ & _ & Hp).
  assert (valid e) as Hv by (eapply Forall_lookup_1; eauto).
  destruct (installed_lookup enc i e He Hv) as [Hnil|(l0 & Hl0 & Hi)].
  { pose proof (installed_valid e Hv) as Hlen. by rewrite Hnil in Hlen. }
  rewrite layer_index_valid in Hi
    by (try done; apply lookup_lt_Some in He; lia).
  destruct (pattern_lookup _ _ _ _ Hp Hi) as (l & Hl & Hsame).
  exists l. split; [done|]. split.
  - intros ->. rewrite installed_INT in Hl0. injection Hl0 as <-.
    destruct l; [eauto | done].
  - intros Hne. destruct Hv as [->| [->| ->]]; [| done |].
    + rewrite installed_NONE in Hl0. injection Hl0 as <-. by destruct l.
    + rewrite installed_ONE_HOT in Hl0. injection Hl0 as <-. by destruct l.
Qed.

(** *** The columns of the result *)

Lemma same_shape_unit {A B} (c : tensor A) (y : tensor B) b :
  unit_column b c → width y = width c →
  map length (rows y) = map length (rows c) → unit_column b y.
Proof.
  intros (Hw & Hb & Hwf) Hwy Hrows. unfold unit_column, batch_size, wf in *.
  split_and!; [congruence | |].
  - by rewrite <-(length_map length (rows y)), Hrows, length_map.
  - rewrite Hwy. apply Forall_forall. intros r Hr.
    apply list_elem_of_lookup in Hr as [j Hj].
    assert (map length (rows y) !! j = Some (length r)) as Hlen.
    { change (map length (rows y)) with (length <$> rows y).
      by rewrite list_lookup_fmap, Hj. }
    rewrite Hrows in Hlen. change (map length (rows c)) with (length <$> rows c) in Hlen.
    rewrite list_lookup_fmap in Hlen.
    destruct (rows c !! j) as [r'|] eqn:Hr'; simpl in Hlen; [|done].
    injection Hlen as <-. exact (Forall_lookup_1 _ _ _ _ Hwf Hr').
Qed.

Lemma impute_Ok (c : tensor string) (o : tensor float32) :
  impute c = Ok o ↔
  ∃ number, tensor_traverse to_number c = Ok number ∧
            o = tensor_map impute_value number.
Proof.
  unfold impute. rewrite bind_Ok. split.
  - intros (number & Hn & [= <-]). exists number. by rewrite tf_where_nan.
  - intros (number & Hn & ->). exists number. by rewrite tf_where_nan.
Qed.

Lemma encode_column_shape (l : option StringLookup) (c : tensor string) o b :
  shape_preserving → unit_column b c → encode_column l c = Ok o → unit_column b o.
Proof.
  intros Hshape Hc. destruct l as [layer|]; simpl.
  - destruct (sl_call layer c) as [layer' [indices|e]] eqn:Hcall; simpl; [|done].
    intros [= <-]. apply tensor_map_shape.
    destruct (Hshape _ _ _ _ Hcall) as [Hw Hrows].
    by eapply same_shape_unit.
  - rewrite impute_Ok. intros (number & Hn & ->).
    apply tensor_map_shape. by eapply tensor_traverse_shape.
Qed.

Lemma zip_columns_lookup (x : tensor string) n (layers : list (option StringLookup)) i l :
  length layers ≤ n → layers !! i = Some l →
  zip (map (λ i, column i x) (seq 0 n)) layers !! i = Some (column i x, l).
Proof.
  intros Hlen Hl. pose proof (lookup_lt_Some _ _ _ Hl) as Hi.
  rewrite lookup_zip_with.
  change (map (λ i, column i x) (seq 0 n)) with ((λ i, column i x) <$> seq 0 n).
  rewrite list_lookup_fmap, lookup_seq_lt by lia. simpl. by rewrite Hl.
Qed.

Lemma traverse_exists {A B} (f : A → result B) (l : list A) :
  Forall (λ a, ∃ b, f a = Ok b) l → ∃ bs, traverse f l = Ok bs.
Proof.
  induction 1 as [|a l [b Hb] _ [bs Hbs]]; simpl; [by eexists|].
  exists (b :: bs). by rewrite Hb, Hbs.
Qed.

Lemma zip_columns_inv (x : tensor string) n (layers : list (option StringLookup)) i c l :
  zip (map (λ i, column i x) (seq 0 n)) layers !! i = Some (c, l) →
  c = column i x ∧ i < n ∧ layers !! i = Some l.
Proof.
  intros Hcl. apply lookup_zip_with_Some in Hcl as (c' & l' & [= <- <-] & Hc & Hl).
  change (map (λ i, column i x) (seq 0 n)) with ((λ i, column i x) <$> seq 0 n) in Hc.
  rewrite list_lookup_fmap in Hc.
  destruct (seq 0 n !! i) as [k|] eqn:Hk; simpl in Hc; [|done].
  injection Hc as <-. apply lookup_seq in Hk as [-> Hk]. done.
Qed.

Lemma encoded_units (x : tensor string) n (layers : list (option StringLookup)) outs :
  shape_preserving → wf x → width x = n →
  Forall2 (λ cl o, encode_column cl.2 cl.1 = Ok o)
    (zip (map (λ i, column i x) (seq 0 n)) layers) outs →
  Forall (unit_column (batch_size x)) outs.
Proof.
  intros Hshape Hwf Hw Htr. apply Forall_forall. intros o Ho.
  apply list_elem_of_lookup in Ho as [i Hi].
  destruct (Forall2_lookup_r _ _ _ _ _ Htr Hi) as ([c l] & Hcl & Henc).
  simpl in Henc. apply zip_columns_inv in Hcl as (-> & Hlt & Hl).
  eapply encode_column_shape; [done | | exact Henc].
  apply column_unit; [done | lia].
Qed.

(** The workhorse: when [call] returns a batch, column [i] of that batch is
    the encoding of column [i] of the input by layer [i]. *)
Lemma call_columns (self : t) inputs (x : tensor string) (out : tensor float32) :
  shape_preserving →
  length (encoding_layers self) ≤ length (encoding self) →
  first (flatten inputs) = Ok x → wf x → width x = length (encoding self) →
  (call self inputs).2 = Ok out →
  width out = length (encoding_layers self) ∧ batch_size out = batch_size x ∧
  wf out ∧
  ∀ i l, encoding_layers self !! i = Some l →
    ∃ col, encode_column l (column i x) = Ok col ∧
           ∀ j, cell out j i = cell col j 0.
Proof.
  intros Hshape Hlen Hx Hwf Hw Hcall.
  pose proof (call_Ok_encoding self inputs out Hcall) as Henc_ne.
  rewrite (call_result self inputs x Hx Hw Henc_ne) in Hcall.
  apply bind_Ok in Hcall as (outs & Htr & Hjoin).
  apply traverse_Ok in Htr.
  set (n := length (encoding self)) in *.
  assert (length outs = length (encoding_layers self)) as Houts_len.
  { rewrite <-(Forall2_length _ _ _ Htr), length_zip_with, length_map, length_seq. lia. }
  pose proof (encoded_units x n _ outs Hshape Hwf Hw Htr) as Hunits.
  assert (outs ≠ []) as Hne.
  { intros ->. by vm_compute in Hjoin. }
  destruct (join_cells outs _ Hne Hunits) as (t' & Ht & Hwt & Hbt & Hwft & Hcells).
  rewrite Hjoin in Ht. injection Ht as <-.
  split_and!; [congruence | done | done |].
  intros i l Hl.
  pose proof (zip_columns_lookup x n _ i l Hlen Hl) as Hzip.
  destruct (Forall2_lookup_l _ _ _ _ _ Htr Hzip) as (o & Ho & Henc).
  exists o. split; [exact Henc|]. intros j. by apply Hcells.
Qed.

(** Conversely [call] returns a batch whenever every column can be
    encoded. *)
Lemma call_returns (self : t) inputs (x : tensor string) :
  shape_preserving →
  encoding_layers self ≠ [] →
  length (encoding_layers self) ≤ length (encoding self) →
  first (flatten inputs) = Ok x → wf x → width x = length (encoding self) →
  (∀ i l, encoding_layers self !! i = Some l →
     ∃ col, encode_column l (column i x) = Ok col) →
  ∃ out, (call self inputs).2 = Ok out.
Proof.
  intros Hshape Hne Hlen Hx Hwf Hw Hall.
  assert (encoding self ≠ []) as Henc_ne.
  { intros He. rewrite He in Hlen. by destruct (encoding_layers self); simpl in *; [|lia]. }
  rewrite (call_result self inputs x Hx Hw Henc_ne).
  set (n := length (encoding self)) in *.
  destruct (traverse_exists (λ cl, encode_column cl.2 cl.1)
              (zip (map (λ i, column i x) (seq 0 n)) (encoding_layers self)))
    as (outs & Houts).
  { apply Forall_lookup. intros i [c l] Hcl.
    apply zip_columns_inv in Hcl as (-> & _ & Hl). simpl. eauto. }
  rewrite Houts; simpl. apply traverse_Ok in Houts.
  pose proof (encoded_units x n _ outs Hshape Hwf Hw Houts) as Hunits.
  assert (outs ≠ []) as Hne'.
  { intros ->. apply Forall2_length in Houts.
    rewrite length_zip_with, length_map, length_seq in Houts. simpl in Houts.
    destruct (encoding_layers self); [done | simpl in *; lia]. }
  destruct (join_cells outs _ Hne' Hunits) as (t' & Ht & _). eauto.
Qed.

(** *** The loop of [adapt] *)

Lemma tf_slice_column {A} (x : tensor A) i :
  i < width x → tf_slice x (0, i) (-1, 1)%Z = Ok (column i x).
Proof.
  intros Hi. unfold tf_slice, slice_extent; simpl.
  rewrite decide_True by lia. simpl.
  unfold column. do 2 f_equal.
  rewrite Nat.sub_0_r. unfold batch_size. by rewrite take_ge.
Qed.

Lemma tf_slice_outside {A} (x : tensor A) i :
  width x ≤ i → tf_slice x (0, i) (-1, 1)%Z = Raise InvalidArgumentError.
Proof.
  intros Hi. unfold tf_slice, slice_extent; simpl.
  by rewrite decide_False by lia.
Qed.

Lemma adapt_loop_spec (layers : list (option StringLookup)) index data :
  Forall (λ x, index + length layers ≤ width x) data →
  adapt_loop index layers data
  = (imap (λ k l, (λ layer, sl_adapt layer (map (column (index + k)) data)) <$> l)
       layers, Ok ()).
Proof.
  revert index. induction layers as [|l layers IH]; intros index Hdata; [done|].
  assert (adapt_loop (S index) layers data
          = (imap ((λ k l, (λ layer, sl_adapt layer (map (column (index + k)) data)) <$> l) ∘ S)
               layers, Ok ())) as Hrest.
  { rewrite IH.
    - f_equal. apply imap_ext. intros k l' _. simpl.
      by replace (S (index + k)) with (index + S k) by lia.
    - eapply Forall_impl; [exact Hdata|]. intros x; simpl. lia. }
  simpl. destruct l as [layer|].
  - rewrite (traverse_total _ (column index)).
    + rewrite Hrest. simpl. by rewrite Nat.add_0_r.
    + eapply Forall_impl; [exact Hdata|]. intros x Hx; simpl in *.
      apply tf_slice_column. lia.
  - rewrite Hrest. done.
Qed.

Lemma adapt_spec (self : t) data :
  Forall (λ x, length (encoding_layers self) ≤ width x) data →
  (adapt self data).2 = Ok () ∧
  ∀ i, encoding_layers (adapt self data).1 !! i
       = (λ l, (λ layer, sl_adapt layer (map (column i) data)) <$> l)
           <$> encoding_layers self !! i.
Proof.
  intros Hdata. unfold adapt. rewrite adapt_loop_spec by done. simpl.
  split; [done|]. intros i. by rewrite list_lookup_imap.
Qed.

(** What a run of the loop that returns has done at each position. *)
Lemma adapt_loop_Ok (layers : list (option StringLookup)) index data layers' :
  adapt_loop index layers data = (layers', Ok ()) →
  ∀ k l, layers !! k = Some l →
    match l with
    | None => layers' !! k = Some None
    | Some layer =>
        traverse (λ x, tf_slice x (0, index + k) (-1, 1)%Z) data
          = Ok (map (column (index + k)) data) ∧
        layers' !! k = Some (Some (sl_adapt layer (map (column (index + k)) data)))
    end.
Proof.
  revert index layers'.
  induction layers as [|l0 layers IH]; intros index layers' Hloop k l Hk; [done|].
  simpl in Hloop. destruct l0 as [layer0|].
  - destruct (traverse _ data) as [data_column|e] eqn:Hslices; [|done].
    destruct (adapt_loop (S index) layers data) as [ls r] eqn:Hrest.
    injection Hloop as <- ->.
    destruct k as [|k]; simpl in Hk.
    + injection Hk as <-. rewrite Nat.add_0_r.
      assert (data_column = map (column index) data) as ->; [|done].
      apply traverse_Ok in Hslices. clear -Hslices.
      induction Hslices as [|x c xs cs Hc _ IHs]; [done|]. simpl. f_equal; [|done].
      destruct (decide (index < width x)) as [Hlt|Hge].
      * rewrite tf_slice_column in Hc by done. by injection Hc.
      * rewrite tf_slice_outside in Hc by lia. done.
    + specialize (IH (S index) ls Hrest k l Hk).
      by replace (index + S k) with (S index + k) by lia.
  - destruct (adapt_loop (S index) layers data) as [ls r] eqn:Hrest.
    injection Hloop as <- ->.
    destruct k as [|k]; simpl in Hk.
    + by injection Hk as <-.
    + specialize (IH (S index) ls Hrest k l Hk).
      by replace (index + S k) with (S index + k) by lia.
Qed.

(** [call] returns a batch only for a batch of [len(encoding)] columns. *)
Lemma call_Ok_width (self : t) inputs (x : tensor string) out :
  first (flatten inputs) = Ok x → (call self inputs).2 = Ok out →
  width x = length (encoding self).
Proof.
  intros Hx Hcall.
  destruct (decide (width x = length (encoding self))) as [|Hne]; [done|].
  by rewrite (call_wrong_width self inputs x Hx Hne) in Hcall.
Qed.

(** A reachable layer with valid entries has one encoding layer per entry. *)
Lemma reachable_length enc kwargs (self : t) :
  Forall valid enc → reachable enc kwargs self →
  length (encoding_layers self) = length enc.
Proof.
  intros Hall Hr. destruct (reachable_invariant _ _ _ Hr) as (_ & _ & Hp).
  rewrite (pattern_length _ _ Hp), installed_length. by rewrite valid_filter.
Qed.

(** *** Columns without an encoding layer *)

Lemma call_imputed_column (self : t) inputs (x : tensor string) out i :
  shape_preserving →
  length (encoding_layers self) ≤ length (encoding self) →
  first (flatten inputs) = Ok x → wf x → width x = length (encoding self) →
  encoding_layers self !! i = Some None →
  (call self inputs).2 = Ok out →
  ∀ j s, cell x j i = Some s →
    ∃ v, to_number s = Ok v ∧ cell out j i = Some (if is_nan v then zero32 else v).
Proof.
  intros Hshape Hlen Hx Hwf Hw Hl Hcall j s Hs.
  destruct (call_columns self inputs x out Hshape Hlen Hx Hwf Hw Hcall)
    as (_ & _ & _ & Hcols).
  destruct (Hcols i None Hl) as (col & Henc & Hcell). simpl in Henc.
  apply impute_Ok in Henc as (number & Hn & ->).
  rewrite <-cell_column in Hs.
  destruct (tensor_traverse_cell _ _ _ _ _ _ Hn Hs) as (v & Hv & Hcv).
  exists v. split; [done|]. rewrite Hcell, cell_tensor_map, Hcv. done.
Qed.

(** C1 (amended). For an encoding list whose entries are all "none", "int"
    or "one-hot", an input batch and a column position [i] whose encoding
    is "none": when [call] returns a batch, the cell of every example in
    column [i] is the float32 number its string converts to, with NaN
    replaced by 0 and every other number unchanged; and [call] does return
    a batch when the batch has [len(encoding)] columns and every column can
    be encoded. *)
Theorem call_none_column enc kwargs (self : t) inputs (x : tensor string) i :
  shape_preserving →
  Forall valid enc → reachable enc kwargs self →
  first (flatten inputs) = Ok x → wf x →
  enc !! i = Some NONE →
  (∀ out, (call self inputs).2 = Ok out →
     ∀ j s, cell x j i = Some s →
       ∃ v, to_number s = Ok v ∧
            cell out j i = Some (if is_nan v then zero32 else v)) ∧
  (width x = length enc →
   (∀ k l, encoding_layers self !! k = Some l →
      ∃ col, encode_column l (column k x) = Ok col) →
   ∃ out, (call self inputs).2 = Ok out).
Proof.
  intros Hshape Hall Hr Hx Hwf Hi.
  destruct (reachable_invariant _ _ _ Hr) as (_ & He & _).
  pose proof (reachable_length _ _ _ Hall Hr) as Hlen.
  destruct (reachable_layer _ _ _ i NONE Hall Hr Hi) as (l & Hl & _ & Hnone).
  rewrite (Hnone ltac:(done)) in Hl.
  split.
  - intros out Hcall. pose proof (call_Ok_width _ _ _ _ Hx Hcall) as Hw.
    eapply call_imputed_column; eauto; rewrite He; lia.
  - intros Hw Hcols. eapply call_returns; eauto; rewrite ?He; [|lia|done].
    intros Hnil. by rewrite Hnil in Hl.
Qed.

(** *** Columns with a [StringLookup] *)

Lemma init_layer_valid enc kwargs i e :
  Forall valid enc → enc !! i = Some e →
  installed e = [] ∨
  ∃ l, installed e = [l] ∧ encoding_layers (__init__ enc kwargs) !! i = Some l.
Proof.
  intros Hall He.
  assert (valid e) as Hv by (eapply Forall_lookup_1; eauto).
  destruct (installed_lookup enc i e He Hv) as [Hnil|(l & Hl & Hi)]; [by left|].
  right. exists l. split; [done|]. rewrite init_layers.
  rewrite layer_index_valid in Hi; [done | done |].
  apply lookup_lt_Some in He. lia.
Qed.

Lemma call_lookup_column (self : t) inputs (x : tensor string) out i layer :
  shape_preserving →
  length (encoding_layers self) ≤ length (encoding self) →
  first (flatten inputs) = Ok x → wf x → width x = length (encoding self) →
  encoding_layers self !! i = Some (Some layer) →
  (call self inputs).2 = Ok out →
  ∃ indices, (sl_call layer (column i x)).2 = Ok indices ∧
             ∀ j, cell out j i = cast_float32 <$> cell indices j 0.
Proof.
  intros Hshape Hlen Hx Hwf Hw Hl Hcall.
  destruct (call_columns self inputs x out Hshape Hlen Hx Hwf Hw Hcall)
    as (_ & _ & _ & Hcols).
  destruct (Hcols i (Some layer) Hl) as (col & Henc & Hcell). simpl in Henc.
  apply fmap_Ok in Henc as (indices & Hi & ->).
  exists indices. split; [done|]. intros j. by rewrite Hcell, cell_tensor_map.
Qed.

(** C2 (amended). For an encoding list whose entries are all "none", "int"
    or "one-hot" and a column position [i] whose encoding is "int":
    [__init__] puts a fresh [StringLookup] at position [i] of
    [encoding_layers]; the layer at position [i] stays a [StringLookup]; and
    when [call] returns, column [i] of the result is what that
    [StringLookup], as [adapt] has left it, returns for column [i] of the
    input, cast to float32. [call] returns when the batch has
    [len(encoding)] columns and every column can be encoded. *)
Theorem call_int_column enc kwargs (self : t) inputs (x : tensor string) i :
  shape_preserving →
  Forall valid enc → reachable enc kwargs self →
  first (flatten inputs) = Ok x → wf x →
  enc !! i = Some INT →
  encoding_layers (__init__ enc kwargs) !! i = Some (Some sl_new) ∧
  ∃ layer, encoding_layers self !! i = Some (Some layer) ∧
    (∀ out, (call self inputs).2 = Ok out →
       ∃ indices, (sl_call layer (column i x)).2 = Ok indices ∧
                  ∀ j, cell out j i = cast_float32 <$> cell indices j 0) ∧
    (width x = length enc →
     (∀ k l, encoding_layers self !! k = Some l →
        ∃ col, encode_column l (column k x) = Ok col) →
     ∃ out, (call self inputs).2 = Ok out).
Proof.
  intros Hshape Hall Hr Hx Hwf Hi.
  destruct (reachable_invariant _ _ _ Hr) as (_ & He & _).
  pose proof (reachable_length _ _ _ Hall Hr) as Hlen.
  split.
  - destruct (init_layer_valid enc kwargs i INT Hall Hi) as [Hnil|(l & Hl & Hli)];
      [done|]. rewrite installed_INT in Hl. by injection Hl as <-.
  - destruct (reachable_layer _ _ _ i INT Hall Hr Hi) as (l & Hl & Hsome & _).
    destruct (Hsome eq_refl) as [layer ->]. exists layer. split; [done|]. split.
    + intros out Hcall. pose proof (call_Ok_width _ _ _ _ Hx Hcall) as Hw.
      eapply call_lookup_column; eauto; rewrite He; lia.
    + intros Hw Hcols. eapply call_returns; eauto; rewrite ?He; [|lia|done].
      intros Hnil. by rewrite Hnil in Hl.
Qed.

(** C3 (amended). For an encoding list whose entries are all "none", "int"
    or "one-hot" and a dataset: [adapt] returns when every batch has
    [len(encoding)] columns; and when it returns, the [StringLookup] of each
    "int" column [i] has been adapted to the width-1 slices of the batches
    at index [i] and to nothing else, and a position without an encoding
    layer is left without one. *)
Theorem adapt_per_column enc kwargs (self : t) (data : list (tensor string)) :
  Forall valid enc → reachable enc kwargs self →
  (Forall (λ x, width x = length enc) data → (adapt self data).2 = Ok ()) ∧
  ((adapt self data).2 = Ok () →
   ∀ i e, enc !! i = Some e →
     (e = INT →
        ∃ layer, encoding_layers self !! i = Some (Some layer) ∧
          traverse (λ x, tf_slice x (0, i) (-1, 1)%Z) data = Ok (map (column i) data) ∧
          encoding_layers (adapt self data).1 !! i
          = Some (Some (sl_adapt layer (map (column i) data)))) ∧
     (e ≠ INT →
        encoding_layers self !! i = Some None ∧
        encoding_layers (adapt self data).1 !! i = Some None)).
Proof.
  intros Hall Hr.
  pose proof (reachable_length _ _ _ Hall Hr) as Hlen.
  split.
  - intros Hdata. apply adapt_spec.
    eapply Forall_impl; [exact Hdata|]. intros x Hx; simpl in *. lia.
  - intros Hok i e He.
    assert (∀ l, encoding_layers self !! i = Some l →
              match l with
              | None => encoding_layers (adapt self data).1 !! i = Some None
              | Some layer =>
                  traverse (λ x, tf_slice x (0, i) (-1, 1)%Z) data
                    = Ok (map (column i) data) ∧
                  encoding_layers (adapt self data).1 !! i
                  = Some (Some (sl_adapt layer (map (column i) data)))
              end) as Hloop.
    { intros l Hl. unfold adapt in *.
      destruct (adapt_loop 0 (encoding_layers self) data) as [ls r] eqn:Hrun.
      simpl in *. subst r. exact (adapt_loop_Ok _ 0 data ls Hrun i l Hl). }
    destruct (reachable_layer _ _ _ i e Hall Hr He) as (l & Hl & Hsome & Hnone).
    split.
    + intros ->. destruct (Hsome eq_refl) as [layer ->].
      exists layer. split; [done|]. exact (Hloop _ Hl).
    + intros Hne. rewrite (Hnone Hne) in Hl. split; [done|]. exact (Hloop _ Hl).
Qed.

(** *** Split, encode, concatenate *)

(** C4 (amended). For a non-empty encoding list whose entries are all
    "none", "int" or "one-hot" and a batch whose last dimension is
    [len(encoding)]: [call] splits the batch into exactly [len(encoding)]
    columns of width 1, column [i] of the batch at position [i]; it encodes
    each column on its own with the layer of its position, a [StringLookup]
    for "int" and the conversion to numbers otherwise; the first exception
    of an encoder is the exception of [call]; and when the columns are
    encoded it returns their concatenation along the last axis, the single
    encoded column itself when [len(encoding)] is 1. *)
Theorem call_split_encode_concatenate enc kwargs (self : t) inputs (x : tensor string) :
  shape_preserving →
  Forall valid enc → enc ≠ [] → reachable enc kwargs self →
  first (flatten inputs) = Ok x → wf x → width x = length enc →
  let columns := map (λ i, column i x) (seq 0 (length enc)) in
  let encoded :=
    traverse (λ cl, encode_column cl.2 cl.1) (zip columns (encoding_layers self)) in
  tf_split x (replicate (length enc) 1) = Ok columns ∧
  length columns = length enc ∧
  Forall (unit_column (batch_size x)) columns ∧
  (∀ i e, enc !! i = Some e →
     ∃ l, encoding_layers self !! i = Some l ∧
          (e = INT → ∃ layer, l = Some layer) ∧ (e ≠ INT → l = None)) ∧
  (call self inputs).2
  = (output_nodes ← encoded;
     if decide (length enc = 1) then first output_nodes
     else Concatenate output_nodes) ∧
  (∀ output_nodes, encoded = Ok output_nodes →
     length output_nodes = length enc ∧
     ∃ out, (call self inputs).2 = Ok out ∧
       width out = length enc ∧ batch_size out = batch_size x ∧ wf out ∧
       ∀ j i o, output_nodes !! i = Some o → cell out j i = cell o j 0).
Proof.
  intros Hshape Hall Hne Hr Hx Hwf Hw columns encoded.
  destruct (reachable_invariant _ _ _ Hr) as (_ & He & _).
  pose proof (reachable_length _ _ _ Hall Hr) as Hlen.
  assert (∀ outs, encoded = Ok outs → length outs = length enc) as Hlen_outs.
  { intros outs Houts. apply traverse_Ok, Forall2_length in Houts.
    rewrite <-Houts. unfold columns.
    rewrite length_zip_with, length_map, length_seq. lia. }
  split_and!.
  - apply tf_split_columns; [by destruct enc | done].
  - unfold columns. by rewrite length_map, length_seq.
  - apply Forall_fmap, Forall_forall. intros i Hi. apply elem_of_seq in Hi.
    simpl. apply column_unit; [done | lia].
  - intros i e Hi. by eapply reachable_layer.
  - rewrite (call_result self inputs x Hx) by (by rewrite He).
    rewrite He. fold columns. fold encoded.
    destruct encoded as [outs|e] eqn:Henc; simpl; [|done].
    unfold join. rewrite (Hlen_outs outs eq_refl).
    by destruct (decide (length enc = 1)).
  - intros outs Houts. split; [by apply Hlen_outs|].
    rewrite (call_result self inputs x Hx) by (by rewrite He).
    rewrite He. fold columns. fold encoded. rewrite Houts. simpl.
    pose proof Houts as Htr. apply traverse_Ok in Htr.
    pose proof (encoded_units x _ _ outs Hshape Hwf Hw Htr) as Hunits.
    assert (outs ≠ []) as Hne'.
    { intros ->. specialize (Hlen_outs [] Houts). simpl in Hlen_outs.
      destruct enc; done. }
    destruct (join_cells outs _ Hne' Hunits) as (out & Hj & Hwo & Hbo & Hwfo & Hcells).
    exists out. split_and!; try done.
    rewrite Hwo. by apply Hlen_outs.
Qed.

(** *** "one-hot" entries *)

Lemma installed_insert_NONE (enc : list string) i :
  enc !! i = Some ONE_HOT →
  concat (map installed (<[i := NONE]> enc)) = concat (map installed enc).
Proof.
  revert i. induction enc as [|e enc IH]; intros [|i]; simpl; try done.
  - by intros [= ->].
  - intros Hi. by rewrite IH.
Qed.

(** C6 (amended). For an encoding list whose entries are all "none", "int"
    or "one-hot" and a column [i] whose encoding is "one-hot": [__init__]
    installs no encoding layer at position [i], exactly as it does when the
    entry is "none"; no later method installs one; and when [call] returns,
    column [i] of the result holds the numbers the strings of column [i]
    convert to, NaN replaced by 0, in a result with one column per input
    column: no one-hot vector is produced. [call] returns when the batch
    has [len(encoding)] columns and every column can be encoded. *)
Theorem call_one_hot_column enc kwargs (self : t) inputs (x : tensor string) i :
  shape_preserving →
  Forall valid enc → reachable enc kwargs self →
  first (flatten inputs) = Ok x → wf x →
  enc !! i = Some ONE_HOT →
  encoding_layers (__init__ enc kwargs) !! i = Some None ∧
  encoding_layers (__init__ (<[i := NONE]> enc) kwargs)
  = encoding_layers (__init__ enc kwargs) ∧
  encoding_layers self !! i = Some None ∧
  (∀ out, (call self inputs).2 = Ok out →
     width out = width x ∧
     ∀ j s, cell x j i = Some s →
       ∃ v, to_number s = Ok v ∧
            cell out j i = Some (if is_nan v then zero32 else v)) ∧
  (width x = length enc →
   (∀ k l, encoding_layers self !! k = Some l →
      ∃ col, encode_column l (column k x) = Ok col) →
   ∃ out, (call self inputs).2 = Ok out).
Proof.
  intros Hshape Hall Hr Hx Hwf Hi.
  destruct (reachable_invariant _ _ _ Hr) as (_ & He & _).
  pose proof (reachable_length _ _ _ Hall Hr) as Hlen.
  destruct (reachable_layer _ _ _ i ONE_HOT Hall Hr Hi) as (l & Hl & _ & Hnone).
  rewrite (Hnone ltac:(done)) in Hl.
  split_and!.
  - destruct (init_layer_valid enc kwargs i ONE_HOT Hall Hi) as [Hnil|(l0 & Hl0 & Hli)];
      [done|]. rewrite installed_ONE_HOT in Hl0. by injection Hl0 as <-.
  - rewrite !init_layers. by apply installed_insert_NONE.
  - done.
  - intros out Hcall. pose proof (call_Ok_width _ _ _ _ Hx Hcall) as Hw.
    split.
    + destruct (call_columns self inputs x out) as (Hwo & _); eauto;
        rewrite ?He; [lia | congruence].
    + eapply call_imputed_column; eauto; rewrite He; lia.
  - intros Hw Hcols. eapply call_returns; eauto; rewrite ?He; [|lia|done].
    intros Hnil. by rewrite Hnil in Hl.
Qed.

(** *** The two lists side by side *)

Lemma zip_columns_truncate (x : tensor string) n (layers : list (option StringLookup)) :
  length layers ≤ n →
  zip (map (λ i, column i x) (seq 0 n)) layers
  = zip (map (λ i, column i x) (seq 0 (length layers))) layers.
Proof.
  intros Hlen. apply list_eq. intros i. rewrite !lookup_zip_with.
  change (map (λ i, column i x) (seq 0 n)) with ((λ i, column i x) <$> seq 0 n).
  change (map (λ i, column i x) (seq 0 (length layers)))
    with ((λ i, column i x) <$> seq 0 (length layers)).
  rewrite !list_lookup_fmap.
  destruct (decide (i < length layers)) as [Hi|Hi].
  - by rewrite !lookup_seq_lt by lia.
  - rewrite (lookup_ge_None_2 layers i) by lia.
    by destruct (seq 0 n !! i), (seq 0 (length layers) !! i).
Qed.

Lemma build_lengths (self : t) input_shape :
  encoding (build self input_shape) = encoding self ∧
  length (encoding_layers (build self input_shape)) = length (encoding_layers self).
Proof. split; [done|]. apply pattern_length, build_pattern. Qed.

Lemma call_lengths (self : t) inputs :
  encoding (call self inputs).1 = encoding self ∧
  length (encoding_layers (call self inputs).1) = length (encoding_layers self).
Proof. split; [apply call_encoding|]. apply pattern_length, call_pattern. Qed.

Lemma adapt_lengths (self : t) data :
  encoding (adapt self data).1 = encoding self ∧
  length (encoding_layers (adapt self data).1) = length (encoding_layers self).
Proof. split; [apply adapt_encoding|]. apply pattern_length, adapt_pattern. Qed.

Lemma layer_index_le (enc : list string) p : p ≤ length enc → layer_index enc p ≤ p.
Proof.
  intros Hp. unfold layer_index.
  pose proof (length_filter valid (take p enc)) as Hle.
  rewrite length_take in Hle. lia.
Qed.

Lemma layer_index_lt (enc : list string) p :
  p ≤ length enc → layer_index enc p < p ↔ ¬ Forall valid (take p enc).
Proof.
  intros Hp. unfold layer_index. split.
  - intros Hlt Hall. rewrite valid_filter, length_take in Hlt by done. lia.
  - intros Hn. apply invalid_filter_length in Hn. rewrite length_take in Hn. lia.
Qed.

(** C7 (amended). When every entry of the encoding list is "none", "int"
    or "one-hot", [__init__] leaves [len(encoding_layers) == len(encoding)],
    and [build], [call] and [adapt] keep both lengths. [__init__] appends
    nothing for any other entry: the layers are those of the list without
    such entries, and there are fewer layers than entries as soon as one
    entry is outside the set. The layer appended for entry [p] sits at the
    number of valid entries before [p], which is [p] or less, and less than
    [p] exactly when an entry before [p] is outside the set. On a batch of
    [len(encoding)] columns, the list not empty, [call] pairs layer [k]
    with column [k] of the batch and leaves out the columns from
    [len(encoding_layers)] on (on any other batch, and for the empty list,
    [tf.split] raises [InvalidArgumentError]); it raises no exception for
    the mismatch: if there is a layer at all and every paired column can
    be encoded, it returns a batch with one column per layer. *)
Theorem encoding_layers_alignment enc kwargs :
  (Forall valid enc →
     length (encoding_layers (__init__ enc kwargs)) = length enc) ∧
  (∀ (self : t) input_shape inputs data,
     length (encoding_layers self) = length (encoding self) →
     length (encoding_layers (build self input_shape))
       = length (encoding (build self input_shape)) ∧
     length (encoding_layers (call self inputs).1)
       = length (encoding (call self inputs).1) ∧
     length (encoding_layers (adapt self data).1)
       = length (encoding (adapt self data).1)) ∧
  encoding_layers (__init__ enc kwargs)
    = encoding_layers (__init__ (filter valid enc) kwargs) ∧
  length (encoding_layers (__init__ enc kwargs)) = length (filter valid enc) ∧
  (¬ Forall valid enc →
     length (encoding_layers (__init__ enc kwargs)) < length enc) ∧
  (∀ p e, enc !! p = Some e → valid e →
     layer_index enc p ≤ p ∧
     (layer_index enc p < p ↔ ¬ Forall valid (take p enc)) ∧
     ∃ l, installed e = [l] ∧
          encoding_layers (__init__ enc kwargs) !! layer_index enc p = Some l) ∧
  (∀ (self : t) inputs (x : tensor string),
     reachable enc kwargs self →
     first (flatten inputs) = Ok x →
     length (encoding_layers self) = length (filter valid enc) ∧
     (call self inputs).2
     = if decide (enc ≠ [] ∧ width x = length enc)
       then output_nodes ←
              traverse (λ cl, encode_column cl.2 cl.1)
                (zip (map (λ i, column i x) (seq 0 (length (encoding_layers self))))
                     (encoding_layers self));
            join output_nodes
       else Raise InvalidArgumentError) ∧
  (∀ (self : t) inputs (x : tensor string),
     shape_preserving → reachable enc kwargs self →
     first (flatten inputs) = Ok x → wf x → width x = length enc →
     encoding_layers self ≠ [] →
     (∀ k l, encoding_layers self !! k = Some l →
        ∃ col, encode_column l (column k x) = Ok col) →
     ∃ out, (call self inputs).2 = Ok out ∧
            width out = length (filter valid enc)).
Proof.
  assert (∀ self : t, reachable enc kwargs self →
            encoding self = enc ∧
            length (encoding_layers self) = length (filter valid enc)) as Hreach.
  { intros self Hr. destruct (reachable_invariant _ _ _ Hr) as (_ & He & Hp).
    split; [done|]. by rewrite (pattern_length _ _ Hp), installed_length. }
  split_and!.
  - intros Hall. rewrite init_layers, installed_length. by rewrite valid_filter.
  - intros self input_shape inputs data Heq.
    destruct (build_lengths self input_shape) as [-> ->].
    destruct (call_lengths self inputs) as [-> ->].
    destruct (adapt_lengths self data) as [-> ->]. done.
  - by rewrite !init_layers, installed_filter.
  - by rewrite init_layers, installed_length.
  - intros Hn. rewrite init_layers, installed_length.
    by apply invalid_filter_length.
  - intros p e Hp Hv. pose proof (lookup_lt_Some _ _ _ Hp) as Hlt.
    split_and!.
    + apply layer_index_le. lia.
    + apply layer_index_lt. lia.
    + destruct (installed_lookup enc p e Hp Hv) as [Hnil|(l & Hl & Hi)].
      { pose proof (installed_valid e Hv) as Hlen. by rewrite Hnil in Hlen. }
      exists l. by rewrite init_layers.
  - intros self inputs x Hr Hx. destruct (Hreach self Hr) as [He Hlen].
    split; [done|].
    destruct (decide (enc ≠ [] ∧ width x = length enc)) as [[Hne Hw]|Hn].
    + rewrite (call_result self inputs x Hx) by (by rewrite He).
      rewrite zip_columns_truncate; [done|].
      rewrite He, Hlen. apply length_filter.
    + destruct (decide (enc = [])) as [Hnil|Hne].
      * by rewrite (call_empty_encoding self inputs x Hx) by (by rewrite He).
      * rewrite (call_wrong_width self inputs x Hx); [done|].
        rewrite He. intros Hw. by apply Hn.
  - intros self inputs x Hshape Hr Hx Hwf Hw Hne Hcols.
    destruct (Hreach self Hr) as [He Hlen].
    assert (length (encoding_layers self) ≤ length (encoding self)) as Hle.
    { rewrite He, Hlen. apply length_filter. }
    destruct (call_returns self inputs x) as [out Hout]; eauto;
      [by rewrite He|].
    exists out. split; [done|].
    destruct (call_columns self inputs x out) as (Hwo & _); eauto;
      [by rewrite He | congruence].
Qed.

(** *** The configuration *)

Lemma dict_fold {V} (l : list (string * V)) (acc : gmap string V) :
  foldl (λ d kv, <[kv.1 := kv.2]> d) acc l = list_to_map (reverse l) ∪ acc.
Proof.
  revert acc. induction l as [|[k v] l IH]; intros acc; simpl.
  - by rewrite (left_id_L ∅ (∪)).
  - rewrite IH, reverse_cons, list_to_map_app. simpl.
    rewrite insert_empty, <-(assoc_L (∪)). by rewrite <-insert_union_singleton_l.
Qed.

Lemma dict_items {V} (d : gmap string V) : dict (items d) = d.
Proof.
  unfold dict, items. rewrite dict_fold, (right_id_L ∅ (∪)).
  rewrite <-(list_to_map_to_list d) at 2.
  apply list_to_map_proper; [|apply reverse_Permutation].
  rewrite fmap_reverse, reverse_Permutation. apply NoDup_fst_map_to_list.
Qed.

Lemma dict_snoc {V} (l : list (string * V)) k v :
  dict (l ++ [(k, v)]) = <[k := v]> (dict l).
Proof. unfold dict. by rewrite foldl_snoc. Qed.

Lemma get_config_insert (self : t) :
  get_config self
  = <["encoding" := PList (encoding self)]> (super_get_config (base self)).
Proof.
  unfold get_config.
  assert (items (dict [("encoding", PList (encoding self))])
          = [("encoding", PList (encoding self))]) as ->.
  { unfold dict, items; simpl. rewrite insert_empty. apply map_to_list_singleton. }
  by rewrite dict_snoc, dict_items.
Qed.

(** C8. The configuration of a layer has the key "encoding" with the
    layer's encoding list as its value, next to the entries of the base
    class's configuration; a layer built from that configuration has the
    same encoding list and, position by position, a [StringLookup] where
    the layer has one and none where it has none. *)
Theorem get_config_round_trip enc kwargs (self : t) :
  reachable enc kwargs self →
  get_config self !! "encoding" = Some (PList (encoding self)) ∧
  (∀ k, k ≠ "encoding" →
     get_config self !! k = super_get_config (base self) !! k) ∧
  ∃ self',
    from_config (get_config self) = Ok self' ∧
    encoding self' = encoding self ∧
    map has_lookup (encoding_layers self') = map has_lookup (encoding_layers self).
Proof.
  intros Hr. destruct (reachable_invariant _ _ _ Hr) as (_ & He & Hp).
  rewrite get_config_insert. split_and!.
  - by rewrite lookup_insert_eq.
  - intros k Hk. by rewrite lookup_insert_ne.
  - unfold from_config. rewrite lookup_insert_eq.
    eexists. split; [done|]. rewrite init_encoding, init_layers.
    split; [done|]. by rewrite Hp, He.
Qed.

End Properties.
End MultiCategoryEncodingProofs.

(** ** MultiCategoryEncoding on the reference framework *)

Module MultiCategoryEncodingExamples.
Import MultiCategoryEncoding MultiCategoryEncodingProofs Reference.

Lemma reference_shape_preserving : shape_preserving.
Proof.
  intros layer x layer' y [= _ <-]. unfold tensor_map; simpl. split; [done|].
  rewrite map_map. apply map_ext. intros r. apply length_map.
Qed.

Lemma reference_vocabulary_preserving : vocabulary_preserving.
Proof. by intros layer x. Qed.

Lemma example_valid : Forall valid example_encoding.
Proof.
  unfold example_encoding.
  repeat first [apply Forall_nil_2 | apply Forall_cons_2]; unfold valid; auto.
Qed.

Lemma example_reachable : reachable example_encoding ∅ example_layer.
Proof. apply reach_adapt, reach_init. Qed.

Lemma example_wf : wf example_batch.
Proof. repeat constructor. Qed.

(** The example layer at work: [adapt] gives the "int" column its
    vocabulary, [call] returns the numbers, the indices and the imputed
    zeros. *)
Example adapt_example :
  map (fmap sl_vocabulary) (encoding_layers example_layer)
  = [None; Some ["b"; "a"]; None].
Proof. reflexivity. Qed.

Example call_example :
  (call example_layer (Leaf example_batch)).2
  = Ok (Tensor 3 [[cast_float32 1; cast_float32 2; cast_float32 7];
                  [zero32; cast_float32 3; zero32]]).
Proof. by vm_compute. Qed.

Example call_nested_example :
  (call example_layer (Seq [Seq [Leaf example_batch]; Leaf (Tensor 0 [])])).2
  = (call example_layer (Leaf example_batch)).2.
Proof. by vm_compute. Qed.

Example call_wrong_width_example :
  (call example_layer (Leaf (Tensor 2 [["1"; "b"]]))).2 = Raise InvalidArgumentError.
Proof. by vm_compute. Qed.

Example call_not_a_number_example :
  (call example_layer (Leaf (Tensor 3 [["x"; "b"; "7"]]))).2
  = Raise InvalidArgumentError.
Proof. by vm_compute. Qed.

Example call_no_input_example :
  (call example_layer (Seq [])).2 = Raise IndexError.
Proof. by vm_compute. Qed.

Example call_empty_encoding_example :
  (call (__init__ [] ∅) (Leaf (Tensor 0 [[]]))).2 = Raise InvalidArgumentError.
Proof. by vm_compute. Qed.

Example call_no_valid_entry_example :
  (call (__init__ ["bad"] ∅) (Leaf (Tensor 1 [["1"]]))).2 = Raise ValueError.
Proof. by vm_compute. Qed.

Lemma call_none_column_witness :
  (∀ out, (call example_layer (Leaf example_batch)).2 = Ok out →
     ∀ j s, cell example_batch j 0 = Some s →
       ∃ v, to_number s = Ok v ∧
            cell out j 0 = Some (if is_nan v then zero32 else v)) ∧
  (width example_batch = length example_encoding →
   (∀ k l, encoding_layers example_layer !! k = Some l →
      ∃ col, encode_column l (column k example_batch) = Ok col) →
   ∃ out, (call example_layer (Leaf example_batch)).2 = Ok out).
Proof.
  apply (call_none_column example_encoding ∅ example_layer
           (Leaf example_batch) example_batch 0).
  - exact reference_shape_preserving.
  - exact example_valid.
  - exact example_reachable.
  - reflexivity.
  - exact example_wf.
  - reflexivity.
Defined.

(** The claim C1 without the condition on the entries: with the encoding
    list ["bad", "none"], column 1 has the encoding "none", and [call]
    returns a batch with the single column 0; the value "2" of column 1 is
    converted nowhere. *)
Lemma call_none_column_misaligned :
  let enc := ["bad"; "none"] in
  let x := Tensor 2 [["1"; "2"]] in
  let self := __init__ enc ∅ in
  enc !! 1 = Some NONE ∧ wf x ∧ width x = length enc ∧
  cell x 0 1 = Some "2" ∧
  ∃ out, (call self (Leaf x)).2 = Ok out ∧
         width out = 1 ∧
         ¬ ∃ v, to_number "2" = Ok v ∧
                cell out 0 1 = Some (if is_nan v then zero32 else v).
Proof.
  simpl. split_and!; [done | repeat constructor | done | done |].
  eexists. split; [vm_compute; reflexivity|]. split; [done|].
  intros (v & _ & Hc). vm_compute in Hc. discriminate.
Qed.

Lemma call_int_column_witness :
  encoding_layers (__init__ example_encoding ∅) !! 1 = Some (Some sl_new) ∧
  ∃ layer, encoding_layers example_layer !! 1 = Some (Some layer) ∧
    (∀ out, (call example_layer (Leaf example_batch)).2 = Ok out →
       ∃ indices, (sl_call layer (column 1 example_batch)).2 = Ok indices ∧
                  ∀ j, cell out j 1 = cast_float32 <$> cell indices j 0) ∧
    (width example_batch = length example_encoding →
     (∀ k l, encoding_layers example_layer !! k = Some l →
        ∃ col, encode_column l (column k example_batch) = Ok col) →
     ∃ out, (call example_layer (Leaf example_batch)).2 = Ok out).
Proof.
  apply (call_int_column example_encoding ∅ example_layer
           (Leaf example_batch) example_batch 1).
  - exact reference_shape_preserving.
  - exact example_valid.
  - exact example_reachable.
  - reflexivity.
  - exact example_wf.
  - reflexivity.
Defined.

(** The claim C2 without the condition on the entries: with the encoding
    list ["bad", "int"], column 1 has the encoding "int", and [__init__]
    leaves nothing at position 1 of [encoding_layers]: the one
    [StringLookup] is at position 0. *)
Lemma call_int_column_misaligned :
  let enc := ["bad"; "int"] in
  enc !! 1 = Some INT ∧
  encoding_layers (__init__ enc ∅) !! 1 = None ∧
  encoding_layers (__init__ enc ∅) = [Some sl_new].
Proof. done. Qed.

Lemma adapt_per_column_witness :
  let self := __init__ example_encoding ∅ in
  let data := [example_batch] in
  (Forall (λ x, width x = length example_encoding) data →
   (adapt self data).2 = Ok ()) ∧
  ((adapt self data).2 = Ok () →
   ∀ i e, example_encoding !! i = Some e →
     (e = INT →
        ∃ layer, encoding_layers self !! i = Some (Some layer) ∧
          traverse (λ x, tf_slice x (0, i) (-1, 1)%Z) data = Ok (map (column i) data) ∧
          encoding_layers (adapt self data).1 !! i
          = Some (Some (sl_adapt layer (map (column i) data)))) ∧
     (e ≠ INT →
        encoding_layers self !! i = Some None ∧
        encoding_layers (adapt self data).1 !! i = Some None)).
Proof.
  apply (adapt_per_column example_encoding ∅).
  - exact example_valid.
  - apply reach_init.
Defined.

(** The claim C3 without the condition on the entries: with the encoding
    list ["bad", "int"], the "int" column is column 1, and [adapt] fits the
    one [StringLookup] to the slices at index 0: its vocabulary is that of
    column 0. *)
Lemma adapt_per_column_misaligned :
  let enc := ["bad"; "int"] in
  let batch := Tensor 2 [["x"; "a"]; ["y"; "b"]] in
  let self := (adapt (__init__ enc ∅) [batch]).1 in
  enc !! 1 = Some INT ∧ wf batch ∧ width batch = length enc ∧
  encoding_layers self = [Some (sl_adapt sl_new [column 0 batch])] ∧
  map (fmap sl_vocabulary) (encoding_layers self) = [Some ["x"; "y"]] ∧
  encoding_layers self ≠ [Some (sl_adapt sl_new [column 1 batch])] ∧
  encoding_layers self !! 1 = None.
Proof.
  simpl. split_and!; [done | repeat constructor | done | done | done | | done].
  vm_compute. discriminate.
Qed.

Lemma call_split_encode_concatenate_witness :
  let enc := example_encoding in
  let x := example_batch in
  let columns := map (λ i, column i x) (seq 0 (length enc)) in
  let encoded :=
    traverse (λ cl, encode_column cl.2 cl.1)
      (zip columns (encoding_layers example_layer)) in
  tf_split x (replicate (length enc) 1) = Ok columns ∧
  length columns = length enc ∧
  Forall (unit_column (batch_size x)) columns ∧
  (∀ i e, enc !! i = Some e →
     ∃ l, encoding_layers example_layer !! i = Some l ∧
          (e = INT → ∃ layer, l = Some layer) ∧ (e ≠ INT → l = None)) ∧
  (call example_layer (Leaf x)).2
  = (output_nodes ← encoded;
     if decide (length enc = 1) then first output_nodes
     else Concatenate output_nodes) ∧
  (∀ output_nodes, encoded = Ok output_nodes →
     length output_nodes = length enc ∧
     ∃ out, (call example_layer (Leaf x)).2 = Ok out ∧
       width out = length enc ∧ batch_size out = batch_size x ∧ wf out ∧
       ∀ j i o, output_nodes !! i = Some o → cell out j i = cell o j 0).
Proof.
  apply (call_split_encode_concatenate example_encoding ∅ example_layer
           (Leaf example_batch) example_batch).
  - exact reference_shape_preserving.
  - exact example_valid.
  - discriminate.
  - exact example_reachable.
  - reflexivity.
  - exact example_wf.
  - reflexivity.
Defined.

(** The claim C4 without the condition on the entries: with the encoding
    list ["none", "bad", "none"] and a batch of three columns, [call]
    returns a batch of two columns: columns 0 and 1 converted to numbers
    (column 1, whose entry is "bad", by the layer of entry 2), column 2
    left out. *)
Lemma call_split_encode_concatenate_misaligned :
  let enc := ["none"; "bad"; "none"] in
  let x := Tensor 3 [["1"; "2"; "3"]] in
  let self := __init__ enc ∅ in
  wf x ∧ width x = length enc ∧
  (call self (Leaf x)).2
  = Ok (Tensor 2 [[cast_float32 1; cast_float32 2]]) ∧
  (call self (Leaf x)).2
  ≠ Concatenate [Tensor 1 [[cast_float32 1]]; Tensor 1 [[cast_float32 2]];
                 Tensor 1 [[cast_float32 3]]] ∧
  ∀ out, (call self (Leaf x)).2 = Ok out → width out ≠ length enc.
Proof.
  simpl. split_and!; [repeat constructor | done | by vm_compute | |].
  - vm_compute. discriminate.
  - intros out. vm_compute. intros [= <-]. simpl. discriminate.
Qed.

Lemma call_one_hot_column_witness :
  let enc := example_encoding in
  let x := example_batch in
  encoding_layers (__init__ enc ∅) !! 2 = Some None ∧
  encoding_layers (__init__ (<[2 := NONE]> enc) ∅)
  = encoding_layers (__init__ enc ∅) ∧
  encoding_layers example_layer !! 2 = Some None ∧
  (∀ out, (call example_layer (Leaf x)).2 = Ok out →
     width out = width x ∧
     ∀ j s, cell x j 2 = Some s →
       ∃ v, to_number s = Ok v ∧
            cell out j 2 = Some (if is_nan v then zero32 else v)) ∧
  (width x = length enc →
   (∀ k l, encoding_layers example_layer !! k = Some l →
      ∃ col, encode_column l (column k x) = Ok col) →
   ∃ out, (call example_layer (Leaf x)).2 = Ok out).
Proof.
  apply (call_one_hot_column example_encoding ∅ example_layer
           (Leaf example_batch) example_batch 2).
  - exact reference_shape_preserving.
  - exact example_valid.
  - exact example_reachable.
  - reflexivity.
  - exact example_wf.
  - reflexivity.
Defined.

(** The claim C6 without the condition on the entries: with the encoding
    list ["bad", "one-hot"], column 1 has the encoding "one-hot", and
    [call] returns a batch with the single column 0; the value "nan" of
    column 1 is converted nowhere. *)
Lemma call_one_hot_column_misaligned :
  let enc := ["bad"; "one-hot"] in
  let x := Tensor 2 [["1"; "nan"]] in
  let self := __init__ enc ∅ in
  enc !! 1 = Some ONE_HOT ∧ wf x ∧ width x = length enc ∧
  cell x 0 1 = Some "nan" ∧ to_number "nan" = Ok S754_nan ∧
  encoding_layers self !! 1 = None ∧
  ∃ out, (call self (Leaf x)).2 = Ok out ∧ width out = 1 ∧ cell out 0 1 = None.
Proof.
  simpl. split_and!; [done | repeat constructor | done | done | done | done |].
  eexists. split; [vm_compute; reflexivity|]. done.
Qed.

(** The claim C7 on the pairing: the encoding list ["none", "bad"] has an
    entry outside the set, and no encoding layer is paired with a column
    other than its own: the one layer, appended for entry 0, is at position
    0 and [call] applies it to column 0. *)
Lemma encoding_layers_alignment_at_end :
  let enc := ["none"; "bad"] in
  let x := Tensor 2 [["1"; "2"]] in
  let self := __init__ enc ∅ in
  ¬ Forall valid enc ∧
  encoding_layers self = [None] ∧
  (∀ p e, enc !! p = Some e → valid e → layer_index enc p = p) ∧
  (call self (Leaf x)).2 = Ok (Tensor 1 [[cast_float32 1]]).
Proof.
  simpl. split_and!.
  - intros Hall. apply Forall_cons_1 in Hall as [_ Hall].
    apply Forall_cons_1 in Hall as [[Hv| [Hv|Hv]] _]; discriminate.
  - done.
  - intros [|[|p]] e; simpl; [by intros [= <-] | | done].
    intros [= <-] [Hv| [Hv|Hv]]; discriminate.
  - by vm_compute.
Qed.

Lemma get_config_round_trip_witness :
  get_config example_layer !! "encoding" = Some (PList (encoding example_layer)) ∧
  (∀ k, k ≠ "encoding" →
     get_config example_layer !! k = super_get_config (base example_layer) !! k) ∧
  ∃ self',
    from_config (get_config example_layer) = Ok self' ∧
    encoding self' = encoding example_layer ∧
    map has_lookup (encoding_layers self')
    = map has_lookup (encoding_layers example_layer).
Proof.
  apply (get_config_round_trip example_encoding ∅ example_layer).
  exact example_reachable.
Defined.

End MultiCategoryEncodingExamples.

(** ** The layers as objects: what a method call touches *)

Module MultiCategoryEncodingInPlaceProofs.
Import Objects MultiCategoryEncodingInPlace.

Section Properties.
Context `{Framework}.

(** *** Stores *)

Lemma evolves_refl (R : StringLookup → StringLookup → Prop) (σ : store) :
  (∀ layer, R layer layer) → evolves R σ σ.
Proof.
  intros HR. split; [done|]. intros l.
  destruct (σ !! l) as [[layer| | |]|]; eauto.
Qed.

Lemma evolves_trans (R : StringLookup → StringLookup → Prop) (σ1 σ2 σ3 : store) :
  (∀ a b c, R a b → R b c → R a c) →
  evolves R σ1 σ2 → evolves R σ2 σ3 → evolves R σ1 σ3.
Proof.
  intros HR [Hlen1 H1] [Hlen2 H2]. split; [congruence|]. intros l.
  specialize (H1 l). specialize (H2 l).
  destruct (σ1 !! l) as [[layer| | |]|].
  - destruct H1 as (layer' & Hl' & HR1). rewrite Hl' in H2.
    destruct H2 as (layer'' & Hl'' & HR2). eauto.
  - by rewrite H1 in H2.
  - by rewrite H1 in H2.
  - by rewrite H1 in H2.
  - by rewrite H1 in H2.
Qed.

Lemma evolves_insert (R : StringLookup → StringLookup → Prop) (σ : store) l layer layer' :
  (∀ layer, R layer layer) →
  σ !! l = Some (StringLookupObject layer) → R layer layer' →
  evolves R σ (<[l := StringLookupObject layer']> σ).
Proof.
  intros HR Hl HRl. split; [apply length_insert|]. intros l'.
  destruct (decide (l' = l)) as [->|Hne].
  - rewrite Hl. exists layer'. split; [|done].
    apply list_lookup_insert_eq. by eapply lookup_lt_Some.
  - destruct (σ !! l') as [[layer0| | |]|] eqn:Hl';
      rewrite list_lookup_insert_ne by done; eauto.
Qed.

Lemma evolves_update (σ : store) l (f : StringLookup → StringLookup) :
  evolves (λ _ _, True) σ (update σ l f).
Proof.
  unfold update.
  destruct (σ !! l) as [[layer| | |]|] eqn:Hl; try (by apply evolves_refl).
  by apply (evolves_insert _ σ l layer).
Qed.

Lemma update_other (σ : store) l (f : StringLookup → StringLookup) l' :
  l' ≠ l → update σ l f !! l' = σ !! l'.
Proof.
  intros Hne. unfold update.
  destruct (σ !! l) as [[layer| | |]|]; try done.
  by rewrite list_lookup_insert_ne.
Qed.

(** An object that is no [StringLookup] is left as it is. *)
Lemma evolves_other (R : StringLookup → StringLookup → Prop) (σ σ' : store) l o :
  evolves R σ σ' → σ !! l = Some o → (∀ layer, o ≠ StringLookupObject layer) →
  σ' !! l = Some o.
Proof.
  intros [_ He] Hl Ho. specialize (He l). rewrite Hl in He.
  destruct o as [layer| | |]; try done. by destruct (Ho layer).
Qed.



(** *** [call] *)



Lemma layer_at_same (σ σ' : store) (ls : list (option nat)) vs :
  (∀ l, Some l ∈ ls → σ' !! l = σ !! l) →
  Forall2 (layer_at σ) ls vs → Forall2 (layer_at σ') ls vs.
Proof.
  intros Hsame Hls. induction Hls as [|ol ov ls vs Hov _ IH]; [constructor|].
  constructor.
  - destruct ol as [l0|], ov as [layer0|]; simpl in *; try done.
    rewrite Hsame; [done | by left].
  - apply IH. intros l Hl. apply Hsame. by right.
Qed.

Lemma layer_at_insert (σ : store) l (o : object) (ls : list (option nat)) vs :
  Some l ∉ ls → Forall2 (layer_at σ) ls vs →
  Forall2 (layer_at (<[l := o]> σ)) ls vs.
Proof.
  intros Hl. apply layer_at_same. intros l0 Hl0.
  apply list_lookup_insert_ne. by intros ->.
Qed.





(** *** [build], [adapt] and [__init__] *)

Lemma build_evolves (σ : store) (self : nat) input_shape :
  evolves (λ _ _, True) σ (build σ self input_shape).1.
Proof.
  unfold build.
  destruct (σ !! self) as [[layer| |base encoding ls|]|];
    try (by apply evolves_refl).
  simpl. clear. revert σ. induction ls as [|[l|] ls IH]; intros σ; simpl.
  - by apply evolves_refl.
  - eapply evolves_trans; [done | apply evolves_update | apply IH].
  - apply IH.
Qed.

Lemma adapt_loop_evolves (σ : store) index (ls : list (option nat)) data :
  evolves (λ _ _, True) σ (adapt_loop σ index ls data).1.
Proof.
  revert σ index. induction ls as [|[l|] ls IH]; intros σ index; simpl.
  - by apply evolves_refl.
  - destruct (traverse _ data) as [data_column|e]; [|by apply evolves_refl].
    eapply evolves_trans; [done | apply evolves_update | apply IH].
  - apply IH.
Qed.

Lemma adapt_evolves (σ : store) (self : nat) data :
  evolves (λ _ _, True) σ (adapt σ self data).1.
Proof.
  unfold adapt.
  destruct (σ !! self) as [[layer| |base encoding ls|]|];
    try (by apply evolves_refl).
  apply adapt_loop_evolves.
Qed.

Lemma update_at (σ : store) l layer (f : StringLookup → StringLookup) :
  σ !! l = Some (StringLookupObject layer) →
  update σ l f = <[l := StringLookupObject (f layer)]> σ.
Proof. intros Hl. unfold update. by rewrite Hl. Qed.

Lemma build_loop_refines (σ : store) (ls : list (option nat)) vs :
  let σ' := foldl (λ σ encoding_layer,
                     match encoding_layer with
                     | Some l => update σ l (λ layer, sl_build layer [1])
                     | None => σ
                     end) σ ls in
  Forall2 (layer_at σ) ls vs → NoDup (omap id ls) →
  (∀ l, Some l ∉ ls → σ' !! l = σ !! l) ∧
  Forall2 (layer_at σ') ls
    (map (λ encoding_layer,
            match encoding_layer with
            | Some layer => Some (sl_build layer [1])
            | None => None
            end) vs).
Proof.
  intros σ'. unfold σ'. clear σ'. revert σ vs.
  induction ls as [|ol ls IH]; intros σ vs Hls Hnd;
    inversion Hls as [|? ov ? vs' Hov Hls']; subst; simpl; [by split|].
  clear Hls. rename Hls' into Hls. specialize (λ σ, IH σ vs').
  destruct ol as [l|], ov as [layer|]; simpl in Hov; try done.
  - simpl in Hnd. apply NoDup_cons in Hnd as [Hl Hnd].
    assert (Some l ∉ ls) as Hl'.
    { intros Hin. apply Hl, list_elem_of_omap. by exists (Some l). }
    rewrite (update_at σ l layer) by done.
    assert (l < length σ) as Hlt by (by eapply lookup_lt_Some).
    destruct (IH (<[l := StringLookupObject (sl_build layer [1])]> σ))
      as [Hfp Hls']; [by apply layer_at_insert | done |].
    split.
    + intros l0 Hl0. apply not_elem_of_cons in Hl0 as [Hne Hl0].
      rewrite Hfp by done. apply list_lookup_insert_ne. congruence.
    + constructor; [|done]. simpl. rewrite Hfp by done.
      by apply list_lookup_insert_eq.
  - destruct (IH σ Hls Hnd) as [Hfp Hls']. split.
    + intros l0 Hl0. apply not_elem_of_cons in Hl0 as [_ Hl0]. by apply Hfp.
    + by constructor.
Qed.

(** [build] over the store is [build] on the layer value. *)
Lemma build_refines (σ : store) (self : nat) (v : MultiCategoryEncoding.t) input_shape :
  represents σ self v →
  (build σ self input_shape).2 = Ok () ∧
  represents (build σ self input_shape).1 self
    (MultiCategoryEncoding.build v input_shape).
Proof.
  intros (ls & Hself & Hls & Hnd).
  pose proof (evolves_other _ _ _ self _ (build_evolves σ self input_shape) Hself
                ltac:(done)) as Hself'.
  unfold build in *. rewrite Hself in *. simpl in *. split; [done|].
  destruct (build_loop_refines σ ls _ Hls Hnd) as [_ Hls'].
  by exists ls.
Qed.

Lemma adapt_loop_refines (σ : store) index (ls : list (option nat)) vs data :
  Forall2 (layer_at σ) ls vs → NoDup (omap id ls) →
  (∀ l, Some l ∉ ls → (adapt_loop σ index ls data).1 !! l = σ !! l) ∧
  (adapt_loop σ index ls data).2
  = (MultiCategoryEncoding.adapt_loop index vs data).2 ∧
  Forall2 (layer_at (adapt_loop σ index ls data).1) ls
    (MultiCategoryEncoding.adapt_loop index vs data).1.
Proof.
  revert σ index vs.
  induction ls as [|ol ls IH]; intros σ index vs Hls Hnd;
    inversion Hls as [|? ov ? vs' Hov Hls']; subst; simpl; [by split_and!|].
  clear Hls. rename Hls' into Hls. specialize (λ σ index, IH σ index vs').
  destruct ol as [l|], ov as [layer|]; simpl in Hov; try done.
  - simpl in Hnd. apply NoDup_cons in Hnd as [Hl Hnd].
    assert (Some l ∉ ls) as Hl'.
    { intros Hin. apply Hl, list_elem_of_omap. by exists (Some l). }
    assert (l < length σ) as Hlt by (by eapply lookup_lt_Some).
    destruct (traverse _ data) as [data_column|e]; simpl.
    + rewrite (update_at σ l layer) by done.
      destruct (IH (<[l := StringLookupObject (sl_adapt layer data_column)]> σ)
                  (S index))
        as (Hfp & Hr & Hls'); [by apply layer_at_insert | done |].
      destruct (adapt_loop _ (S index) ls data) as [σ' r].
      destruct (MultiCategoryEncoding.adapt_loop (S index) vs' data) as [vs'' r'].
      simpl in *. split_and!.
      * intros l0 Hl0. apply not_elem_of_cons in Hl0 as [Hne Hl0].
        rewrite Hfp by done. apply list_lookup_insert_ne. congruence.
      * done.
      * constructor; [|done]. simpl. rewrite Hfp by done.
        by apply list_lookup_insert_eq.
    + split_and!; [done | done |]. by constructor.
  - destruct (IH σ (S index) Hls Hnd) as (Hfp & Hr & Hls').
    destruct (adapt_loop σ (S index) ls data) as [σ' r].
    destruct (MultiCategoryEncoding.adapt_loop (S index) vs' data) as [vs'' r'].
    simpl in *. split_and!.
    + intros l0 Hl0. apply not_elem_of_cons in Hl0 as [_ Hl0]. by apply Hfp.
    + done.
    + by constructor.
Qed.

(** [adapt] over the store is [adapt] on the layer value. *)
Lemma adapt_refines (σ : store) (self : nat) (v : MultiCategoryEncoding.t) data :
  represents σ self v →
  (adapt σ self data).2 = (MultiCategoryEncoding.adapt v data).2 ∧
  represents (adapt σ self data).1 self (MultiCategoryEncoding.adapt v data).1.
Proof.
  intros (ls & Hself & Hls & Hnd).
  pose proof (evolves_other _ _ _ self _ (adapt_evolves σ self data) Hself
                ltac:(done)) as Hself'.
  unfold adapt, MultiCategoryEncoding.adapt in *. rewrite Hself in *.
  destruct (adapt_loop_refines σ 0 ls _ data Hls Hnd) as (_ & Hr & Hls').
  destruct (adapt_loop σ 0 ls data) as [σ' r].
  destruct (MultiCategoryEncoding.adapt_loop 0 _ data) as [vs' r'].
  simpl in *. split; [done|]. by exists ls.
Qed.




(** The object [__init__] makes is the layer of the value-passing
    [__init__], with a new [StringLookup] object per "int" entry. *)
Lemma init_represents (σ : store) (enc : list string) kwargs :
  represents (__init__ σ enc kwargs).1 (__init__ σ enc kwargs).2
    (MultiCategoryEncoding.__init__ enc kwargs).
Proof.
  unfold __init__, MultiCategoryEncoding.__init__, new; simpl.
  set (self := length σ).
  set (Inv := λ (σ1 : store) (v : MultiCategoryEncoding.t),
         ∃ ls, σ1 !! self
               = Some (MultiCategoryEncodingObject (MultiCategoryEncoding.base v)
                         (MultiCategoryEncoding.encoding v) ls) ∧
               Forall2 (layer_at σ1) ls (MultiCategoryEncoding.encoding_layers v) ∧
               NoDup (omap id ls) ∧
               (∀ l, Some l ∈ ls → self < l < length σ1) ∧
               self < length σ1).
  assert (∀ σ1 v, Inv σ1 v →
            Inv (append σ1 self None) (MultiCategoryEncoding.append v None)) as Hnone.
  { intros σ1 v (ls & Hself & Hls & Hnd & Hb & Hlt).
    unfold append. rewrite Hself. exists (ls ++ [None]). split_and!.
    - by apply list_lookup_insert_eq.
    - simpl. apply Forall2_app; [|by repeat constructor].
      apply layer_at_insert; [|done]. intros Hin. apply Hb in Hin. lia.
    - rewrite omap_app. simpl. by rewrite app_nil_r.
    - intros l Hl. rewrite length_insert. apply elem_of_app in Hl as [Hl|Hl].
      + by apply Hb.
      + by apply list_elem_of_singleton in Hl.
    - by rewrite length_insert. }
  assert (∀ σ1 v, Inv σ1 v →
            Inv (append (σ1 ++ [StringLookupObject sl_new]) self (Some (length σ1)))
                (MultiCategoryEncoding.append v (Some sl_new))) as Hint.
  { intros σ1 v (ls & Hself & Hls & Hnd & Hb & Hlt).
    unfold append. rewrite lookup_app_l, Hself by done.
    exists (ls ++ [Some (length σ1)]). split_and!.
    - apply list_lookup_insert_eq. rewrite length_app. lia.
    - simpl. apply Forall2_app.
      + apply layer_at_insert; [intros Hin; apply Hb in Hin; lia|].
        eapply layer_at_same; [|exact Hls].
        intros l Hl. apply lookup_app_l. by apply Hb.
      + repeat constructor. simpl.
        rewrite list_lookup_insert_ne by lia.
        by rewrite lookup_app_r, Nat.sub_diag by lia.
    - rewrite omap_app. simpl. apply NoDup_app. split_and!.
      + done.
      + intros l Hl Hl'. apply list_elem_of_singleton in Hl' as ->.
        apply list_elem_of_omap in Hl as (ol & Hol & Heq).
        destruct ol as [l|]; simpl in Heq; [|done]. injection Heq as ->.
        apply Hb in Hol. lia.
      + apply NoDup_singleton.
    - intros l Hl. rewrite length_insert, length_app. simpl.
      apply elem_of_app in Hl as [Hl|Hl].
      + apply Hb in Hl. lia.
      + apply list_elem_of_singleton in Hl. injection Hl as ->. lia.
    - rewrite length_insert, length_app. lia. }
  assert (∀ σ1 v, Inv σ1 v →
            Inv (foldl (λ (σ : store) (encoding : string),
                          if String.eqb encoding NONE then append σ self None
                          else if String.eqb encoding INT
                               then let '(σ0, layer) :=
                                      (σ ++ [StringLookupObject sl_new], length σ) in
                                    append σ0 self (Some layer)
                               else if String.eqb encoding ONE_HOT
                                    then append σ self None else σ) σ1 enc)
                (foldl (λ (self0 : MultiCategoryEncoding.t) (encoding : string),
                          if String.eqb encoding NONE
                          then MultiCategoryEncoding.append self0 None
                          else if String.eqb encoding INT
                               then MultiCategoryEncoding.append self0 (Some sl_new)
                               else if String.eqb encoding ONE_HOT
                                    then MultiCategoryEncoding.append self0 None
                                    else self0) v enc)) as Hloop.
  { induction enc as [|e enc IH]; intros σ1 v HInv; simpl; [done|].
    apply IH.
    destruct (String.eqb e NONE); [by apply Hnone|].
    destruct (String.eqb e INT); [by apply Hint|].
    destruct (String.eqb e ONE_HOT); [by apply Hnone|]. done. }
  destruct (Hloop (σ ++ [MultiCategoryEncodingObject (super_init kwargs) enc []])
              (MultiCategoryEncoding.Self (super_init kwargs) enc []))
    as (ls & Hself & Hls & Hnd & _).
  { exists []. split_and!.
    - simpl. by rewrite lookup_app_r, Nat.sub_diag by (unfold self; lia).
    - constructor.
    - constructor.
    - intros l Hl. by apply elem_of_nil in Hl.
    - rewrite length_app. simpl. unfold self. lia. }
  by exists ls.
Qed.


End Properties.
End MultiCategoryEncodingInPlaceProofs.

(** ** The objects of the reference framework *)

Module MultiCategoryEncodingInPlaceExamples.
Import Objects MultiCategoryEncodingInPlace MultiCategoryEncodingInPlaceProofs.
Import Reference.

(** The example store: the tokenizer, the text layer, the example layer
    and its one [StringLookup], adapted to column 1. *)
Example example_store_references :
  let σ := example_store.1.1 in
  let self := example_store.1.2 in
  let text_layer := example_store.2 in
  length σ = 4 ∧ text_layer = 1 ∧ self = 2 ∧ references σ self = [3] ∧
  σ !! 1 = Some (TextVectorizationWithTokenizerObject 0) ∧
  σ !! 3 = Some (StringLookupObject (Lookup ["b"; "a"] false)).
Proof. repeat split. Qed.

Example example_store_represents :
  represents example_store.1.1 example_store.1.2 example_layer.
Proof.
  exists [None; Some 3; None]. split_and!.
  - reflexivity.
  - repeat constructor.
  - apply NoDup_singleton.
Qed.

(** [call] on the example store returns the encoded batch and calls the
    [StringLookup] object, which keeps the vocabulary [adapt] gave it; the
    text layer works on the store [call] leaves as it does before. *)
Example call_in_place_example :
  let σ := example_store.1.1 in
  let self := example_store.1.2 in
  let text_layer := example_store.2 in
  let σ' := (call σ self (Leaf example_batch)).1 in
  (call σ self (Leaf example_batch)).2
  = Ok (Tensor 3 [[cast_float32 1; cast_float32 2; cast_float32 7];
                  [zero32; cast_float32 3; zero32]]) ∧
  (λ o, match o with
        | StringLookupObject layer => Some (vocabulary layer, built layer)
        | _ => None
        end) <$> σ'
  = [None; None; None; Some (["b"; "a"], true)] ∧
  (TextVectorizationWithTokenizerInPlace.call σ' text_layer example_sentences).2
  = Ok example_inputs.
Proof. split_and!; vm_compute; reflexivity. Qed.

End MultiCategoryEncodingInPlaceExamples.

(** ** TextVectorizationWithTokenizer *)

Module TextVectorizationWithTokenizerProofs.
Import TextVectorizationWithTokenizer.

Lemma map_const_replicate {A B} (c : B) (l : list A) :
  map (λ _, c) l = replicate (length l) c.
Proof. induction l as [|a l IH]; simpl; [done | by rewrite IH]. Qed.

Lemma zip_with_app_replicate {A B} (c : list B) (f : A → list B) (l : list A) :
  zip_with app (replicate (length l) c) (map f l) = map (λ a, c ++ f a) l.
Proof. induction l as [|a l IH]; simpl; [done | by rewrite IH]. Qed.

Lemma padded_row (r : list (list Z)) j :
  rows (padded r) !! j
  = (λ row, row ++ replicate (width (padded r) - length row) 0%Z) <$> r !! j.
Proof. unfold padded; simpl. by rewrite list_lookup_fmap. Qed.

Lemma padded_width_le (r : list (list Z)) j row :
  r !! j = Some row → length row ≤ width (padded r).
Proof.
  intros Hj. unfold padded; simpl. apply max_list_elem_of_le.
  apply list_elem_of_lookup. exists j.
  change (map length r) with (length <$> r). by rewrite list_lookup_fmap, Hj.
Qed.

Lemma padded_width_like (f : Z → Z) (r : list (list Z)) :
  width (padded (map (map f) r)) = width (padded r).
Proof.
  unfold padded; simpl. f_equal. rewrite map_map.
  apply map_ext. intros row. apply length_map.
Qed.

Lemma zeros_concat {A} (c : list Z) (f : A → list Z) (l : list A) :
  zip_with app (zeros (replicate (length l) c)) (zeros (map f l))
  = zeros (map (λ a, c ++ f a) l).
Proof.
  unfold zeros.
  change (map (map (λ _ : Z, 0%Z)) (replicate (length l) c))
    with (map (λ _ : Z, 0%Z) <$> replicate (length l) c).
  rewrite fmap_replicate, !map_map, zip_with_app_replicate.
  apply map_ext. intros a. by rewrite List.map_app.
Qed.

(** *** Element types *)

Lemma dtype_of_int32 (ids : list Z) : int32_ids ids → dtype_of ids = Ok DT_INT32.
Proof.
  intros [Hne Hall]. unfold dtype_of.
  rewrite decide_False by done. by rewrite decide_True.
Qed.

Lemma int32_ids_replicate (n : nat) (ids : list Z) :
  n ≠ 0 → int32_ids ids → int32_ids (concat (replicate n ids)).
Proof.
  intros Hn [Hne Hall]. split.
  - destruct n as [|n]; [done|]. simpl. by destruct ids.
  - apply Forall_concat, Forall_replicate. done.
Qed.

Lemma convert_to_tensor_replicate (n : nat) (row : list Z) :
  convert_to_tensor (replicate n row)
  = dt ← dtype_of (concat (replicate n row)); Ok (TfTensor false dt (replicate n row)).
Proof.
  unfold convert_to_tensor. rewrite decide_True; [done|].
  destruct n as [|n]; [constructor|]. simpl.
  constructor; [done|]. by apply Forall_replicate.
Qed.

(** *** [bert_encode] in one piece

    The rows are the ids of '[CLS]' followed by the ids of the sentence.
    [bert_encode] raises when an int cannot be converted, when the ids of
    '[CLS]' and those of the sentences get different element types, and
    on the empty batch, which [tf.ragged.constant] makes a dense tensor. *)
Lemma bert_encode_unfold (self : t) (input : list string) :
  let cls_ids := convert_tokens_to_ids (tokenizer self) ["[CLS]"] in
  let r := map (λ s, cls_ids ++ encode_sentence self s) input in
  bert_encode self input
  = (dt1 ← dtype_of (concat (map (encode_sentence self) input));
     dt0 ← dtype_of (concat (replicate (length input) cls_ids));
     if decide (dt0 = dt1) then
       if decide (input = []) then Raise AttributeError
       else Ok (dict [("input_word_ids", padded r);
                      ("input_mask", padded (ones r));
                      ("input_type_ids", padded (zeros r))])
     else Raise InvalidArgumentError).
Proof.
  intros cls_ids r. unfold bert_encode, ragged_constant.
  destruct (dtype_of (concat (map (encode_sentence self) input))) as [dt1|e];
    simpl; [|done].
  unfold shape0; simpl. rewrite length_map. fold cls_ids.
  rewrite convert_to_tensor_replicate.
  destruct (dtype_of (concat (replicate (length input) cls_ids))) as [dt0|e];
    simpl; [|done].
  unfold tf_concat, shape0; simpl.
  rewrite length_replicate, length_map.
  destruct (decide (dt0 = dt1)) as [->|Hdt].
  - rewrite !decide_True
      by (split; [done | unfold zeros; by rewrite ?length_map, ?length_replicate]).
    simpl. unfold to_tensor; simpl.
    destruct (decide (input = [])) as [->|Hne]; [done|].
    rewrite bool_decide_true by (by destruct input). simpl.
    rewrite zip_with_app_replicate, zeros_concat. reflexivity.
  - rewrite !decide_False by (by intros [? _]). reflexivity.
Qed.

Lemma bert_encode_empty_batch (self : t) : bert_encode self [] = Raise AttributeError.
Proof. by rewrite bert_encode_unfold. Qed.

Lemma bert_encode_returns (self : t) (input : list string) :
  let cls_ids := convert_tokens_to_ids (tokenizer self) ["[CLS]"] in
  let r := map (λ s, cls_ids ++ encode_sentence self s) input in
  input ≠ [] → int32_ids cls_ids →
  int32_ids (concat (map (encode_sentence self) input)) →
  bert_encode self input
  = Ok (dict [("input_word_ids", padded r);
              ("input_mask", padded (ones r));
              ("input_type_ids", padded (zeros r))]).
Proof.
  intros cls_ids r Hne Hcls Hs. rewrite bert_encode_unfold.
  rewrite (dtype_of_int32 _ Hs). simpl.
  rewrite (dtype_of_int32 (concat (replicate (length input) _))).
  - simpl. by rewrite decide_False.
  - apply int32_ids_replicate; [by destruct input | done].
Qed.

Lemma bert_encode_Ok (self : t) (input : list string) inputs :
  let cls_ids := convert_tokens_to_ids (tokenizer self) ["[CLS]"] in
  let r := map (λ s, cls_ids ++ encode_sentence self s) input in
  bert_encode self input = Ok inputs →
  input ≠ [] ∧
  inputs = dict [("input_word_ids", padded r);
                 ("input_mask", padded (ones r));
                 ("input_type_ids", padded (zeros r))].
Proof.
  intros cls_ids r. rewrite bert_encode_unfold.
  destruct (dtype_of (concat (map (encode_sentence self) input))) as [dt1|e];
    simpl; [|done].
  destruct (dtype_of (concat (replicate (length input) _))) as [dt0|e];
    simpl; [|done].
  destruct (decide (dt0 = dt1)); [|done].
  destruct (decide (input = [])); [done|].
  by intros [= <-].
Qed.

(** C9 (amended). For every batch of sentences that is not empty and for
    which the tokenizer's ids for '[CLS]' and its ids for the sentences
    are int32 values, at least one on each side, [call] returns a dict
    with exactly the keys 'input_word_ids', 'input_mask' and
    'input_type_ids', three tensors of one shape with a row per sentence.
    The row of a sentence in [input_word_ids] begins with the tokenizer's
    ids for '[CLS]', followed by its ids for the tokens of the sentence
    with '[SEP]' appended, and is filled with 0 up to the longest row;
    [input_mask] has 1 at these token positions and 0 after them;
    [input_type_ids] is 0 everywhere. *)
Theorem call_bert_inputs (self : t) (input : list string) :
  input ≠ [] →
  int32_ids (convert_tokens_to_ids (tokenizer self) ["[CLS]"]) →
  int32_ids (concat (map (encode_sentence self) input)) →
  ∃ (inputs : gmap string (tensor Z)) (input_word_ids input_mask input_type_ids : tensor Z),
    call self input = Ok inputs ∧
    dom inputs = {[ "input_word_ids"; "input_mask"; "input_type_ids" ]} ∧
    inputs !! "input_word_ids" = Some input_word_ids ∧
    inputs !! "input_mask" = Some input_mask ∧
    inputs !! "input_type_ids" = Some input_type_ids ∧
    width input_mask = width input_word_ids ∧
    width input_type_ids = width input_word_ids ∧
    batch_size input_word_ids = length input ∧
    batch_size input_mask = length input ∧
    batch_size input_type_ids = length input ∧
    ∀ j s, input !! j = Some s →
      let ids :=
        convert_tokens_to_ids (tokenizer self) ["[CLS]"]
        ++ convert_tokens_to_ids (tokenizer self)
             (tokenize (tokenizer self) s ++ ["[SEP]"]) in
      let padding := width input_word_ids - length ids in
      length ids ≤ width input_word_ids ∧
      rows input_word_ids !! j = Some (ids ++ replicate padding 0%Z) ∧
      rows input_mask !! j
      = Some (replicate (length ids) 1%Z ++ replicate padding 0%Z) ∧
      rows input_type_ids !! j = Some (replicate (width input_word_ids) 0%Z).
Proof.
  intros Hne Hcls Hids. unfold call. rewrite bert_encode_returns by done.
  set (r := map (λ s, convert_tokens_to_ids (tokenizer self) ["[CLS]"]
                      ++ encode_sentence self s) input).
  assert (width (padded (ones r)) = width (padded r)) as Hw1
    by apply padded_width_like.
  assert (width (padded (zeros r)) = width (padded r)) as Hw0
    by apply padded_width_like.
  eexists _, (padded r), (padded (ones r)), (padded (zeros r)).
  split; [done|].
  assert (∀ (k1 k2 k3 : string) (v1 v2 v3 : tensor Z),
            dict [(k1, v1); (k2, v2); (k3, v3)]
            = <[k3 := v3]> (<[k2 := v2]> (<[k1 := v1]> ∅)))
    as -> by done.
  split_and!.
  - rewrite !dom_insert_L, dom_empty_L. set_solver.
  - by rewrite lookup_insert_ne, lookup_insert_ne, lookup_insert_eq.
  - by rewrite lookup_insert_ne, lookup_insert_eq.
  - by rewrite lookup_insert_eq.
  - done.
  - done.
  - unfold batch_size, padded, r; simpl. by rewrite !length_map.
  - unfold batch_size, padded, ones, r; simpl. by rewrite !length_map.
  - unfold batch_size, padded, zeros, r; simpl. by rewrite !length_map.
  - intros j s Hs.
    set (ids := convert_tokens_to_ids (tokenizer self) ["[CLS]"]
                ++ convert_tokens_to_ids (tokenizer self)
                     (tokenize (tokenizer self) s ++ ["[SEP]"])).
    assert (r !! j = Some ids) as Hr.
    { unfold r.
      change (map ?f input) with (f <$> input).
      by rewrite list_lookup_fmap, Hs. }
    pose proof (padded_width_le r j ids Hr) as Hle.
    split_and!.
    + done.
    + by rewrite padded_row, Hr.
    + rewrite padded_row, Hw1. unfold ones.
      change (map (map (λ _ : Z, 1%Z)) r) with (map (λ _ : Z, 1%Z) <$> r).
      rewrite list_lookup_fmap, Hr. simpl.
      by rewrite length_map, map_const_replicate.
    + rewrite padded_row, Hw0. unfold zeros.
      change (map (map (λ _ : Z, 0%Z)) r) with (map (λ _ : Z, 0%Z) <$> r).
      rewrite list_lookup_fmap, Hr. simpl.
      rewrite length_map, map_const_replicate, <-replicate_add.
      simpl in Hle. do 2 f_equal. lia.
Qed.

(** Two sentences with the reference tokenizer. *)
Example bert_encode_example :
  let inputs : gmap string (tensor Z) :=
    dict [("input_word_ids", Tensor 4 [[101; 103; 104; 102]; [101; 103; 102; 0]]);
          ("input_mask", Tensor 4 [[1; 1; 1; 1]; [1; 1; 1; 0]]);
          ("input_type_ids", Tensor 4 [[0; 0; 0; 0]; [0; 0; 0; 0]])]%Z in
  call (__init__ Reference.tokenizer) ["hello world"; "hello"] = Ok inputs.
Proof. vm_compute. reflexivity. Qed.

(** A tokenizer whose id for '[SEP]' is beyond int32: the ids of the
    sentences become int64, those of '[CLS]' stay int32, and the
    concatenation fails. *)
Example bert_encode_int64_example :
  let tokenizer := {| tokenize := λ _, [];
                      convert_tokens_to_ids :=
                        map (λ token, if String.eqb token "[SEP]"
                                      then (2 ^ 31)%Z else 101%Z) |} in
  call (__init__ tokenizer) ["hello"] = Raise InvalidArgumentError.
Proof. by vm_compute. Qed.

Lemma call_bert_inputs_witness :
  let self := __init__ Reference.tokenizer in
  let input := ["hello world"; "hello"] in
  ∃ (inputs : gmap string (tensor Z)) (input_word_ids input_mask input_type_ids : tensor Z),
    call self input = Ok inputs ∧
    dom inputs = {[ "input_word_ids"; "input_mask"; "input_type_ids" ]} ∧
    inputs !! "input_word_ids" = Some input_word_ids ∧
    inputs !! "input_mask" = Some input_mask ∧
    inputs !! "input_type_ids" = Some input_type_ids ∧
    width input_mask = width input_word_ids ∧
    width input_type_ids = width input_word_ids ∧
    batch_size input_word_ids = length input ∧
    batch_size input_mask = length input ∧
    batch_size input_type_ids = length input ∧
    ∀ j s, input !! j = Some s →
      let ids :=
        convert_tokens_to_ids (tokenizer self) ["[CLS]"]
        ++ convert_tokens_to_ids (tokenizer self)
             (tokenize (tokenizer self) s ++ ["[SEP]"]) in
      let padding := width input_word_ids - length ids in
      length ids ≤ width input_word_ids ∧
      rows input_word_ids !! j = Some (ids ++ replicate padding 0%Z) ∧
      rows input_mask !! j
      = Some (replicate (length ids) 1%Z ++ replicate padding 0%Z) ∧
      rows input_type_ids !! j = Some (replicate (width input_word_ids) 0%Z).
Proof.
  apply (call_bert_inputs (__init__ Reference.tokenizer) ["hello world"; "hello"]).
  - discriminate.
  - split; [discriminate|]. repeat constructor; vm_compute; discriminate.
  - split; [discriminate|]. repeat constructor; vm_compute; discriminate.
Defined.

(** The claim C9 on the empty batch: [tf.ragged.constant([])] is a dense
    tensor, and [call] raises [AttributeError] at the first [to_tensor()]
    instead of returning a dict. *)
Lemma call_bert_inputs_empty_batch :
  call (__init__ Reference.tokenizer) [] = Raise AttributeError ∧
  ¬ ∃ inputs : gmap string (tensor Z),
      call (__init__ Reference.tokenizer) [] = Ok inputs.
Proof. split; [by vm_compute | by intros [inputs Hi]; vm_compute in Hi]. Qed.

End TextVectorizationWithTokenizerProofs.

(** ** The top level of the module *)

Module KerasLayersProofs.
Import KerasLayers.

(** C5. Running the top level of the module raises
    [NameError: MultiColumnCategoricalEncoding] in the statement that
    defines CUSTOM_OBJECTS. Neither [MultiColumnCategoricalEncoding] nor
    [index_lookup] is bound by any statement of the module, is a builtin,
    or is bound after any number of the statements have run.
    When the exception is raised, [MultiCategoryEncoding] is bound and
    [TextVectorizationWithTokenizer] is not; the import of the module
    fails with that exception, and so does the import of either class from
    it. *)
Theorem toplevel_raises_NameError :
  (exec toplevel ∅).2
  = Some ("CUSTOM_OBJECTS", NameError "MultiColumnCategoricalEncoding") ∧
  ("MultiColumnCategoricalEncoding" ∉ defined_names toplevel) ∧
  ("index_lookup" ∉ defined_names toplevel) ∧
  ("MultiColumnCategoricalEncoding" ∉ builtins) ∧
  ("index_lookup" ∉ builtins) ∧
  (∀ n, ("MultiColumnCategoricalEncoding" ∉ (exec (take n toplevel) ∅).1) ∧
        ("index_lookup" ∉ (exec (take n toplevel) ∅).1)) ∧
  "MultiCategoryEncoding" ∈ (exec toplevel ∅).1 ∧
  ("TextVectorizationWithTokenizer" ∉ (exec toplevel ∅).1) ∧
  ("CUSTOM_OBJECTS" ∉ (exec toplevel ∅).1) ∧
  import_module = Raise (NameError "MultiColumnCategoricalEncoding") ∧
  import_from "MultiCategoryEncoding"
  = Raise (NameError "MultiColumnCategoricalEncoding") ∧
  import_from "TextVectorizationWithTokenizer"
  = Raise (NameError "MultiColumnCategoricalEncoding").
Proof.
  split_and!.
  - by vm_compute.
  - compute_done.
  - compute_done.
  - compute_done.
  - compute_done.
  - intros n. do 11 (destruct n as [|n]; [split; compute_done|]).
    split; compute_done.
  - compute_done.
  - compute_done.
  - compute_done.
  - by vm_compute.
  - by vm_compute.
  - by vm_compute.
Qed.

End KerasLayersProofs.

(* ===================================================================== *)
(** * Part III: further properties of the methods                          *)
(* ===================================================================== *)

(** ** The cast to float32 is never NaN *)

Lemma shr_1_nonneg mrs : (0 ≤ shr_m mrs)%Z → (0 ≤ shr_m (shr_1 mrs))%Z.
Proof. destruct mrs as [[|[p|p|]|p] r s]; simpl; lia. Qed.

Lemma iter_pos_shr_1_nonneg p mrs :
  (0 ≤ shr_m mrs)%Z → (0 ≤ shr_m (SpecFloat.iter_pos shr_1 p mrs))%Z.
Proof.
  revert mrs. induction p as [p IH|p IH|]; intros mrs Hm; simpl.
  - apply IH, IH. by apply shr_1_nonneg.
  - by apply IH, IH.
  - by apply shr_1_nonneg.
Qed.

Lemma shr_fexp_nonneg prec emax m e l :
  (0 ≤ m)%Z → (0 ≤ shr_m (shr_fexp prec emax m e l).1)%Z.
Proof.
  intros Hm. unfold shr_fexp, shr.
  assert (0 ≤ shr_m (shr_record_of_loc m l))%Z as H0
    by (by destruct l as [|[]]).
  destruct (fexp prec emax (Zdigits2 m + e) - e)%Z; simpl; try done.
  by apply iter_pos_shr_1_nonneg.
Qed.

Lemma round_nearest_even_nonneg m l : (0 ≤ m)%Z → (0 ≤ round_nearest_even m l)%Z.
Proof.
  intros Hm. destruct l as [|[]]; simpl; try lia.
  destruct (Z.even m); lia.
Qed.

Lemma binary_round_aux_not_nan prec emax sx mx ex lx :
  (0 ≤ mx)%Z → is_nan (binary_round_aux prec emax sx mx ex lx) = false.
Proof.
  intros Hm. unfold binary_round_aux.
  pose proof (shr_fexp_nonneg prec emax mx ex lx Hm) as H1.
  destruct (shr_fexp prec emax mx ex lx) as [mrs' e']; simpl in H1.
  pose proof (shr_fexp_nonneg prec emax
                (round_nearest_even (shr_m mrs') (loc_of_shr_record mrs')) e' loc_Exact
                (round_nearest_even_nonneg _ _ H1)) as H2.
  destruct (shr_fexp prec emax _ e' loc_Exact) as [mrs'' e'']; simpl in H2.
  destruct (shr_m mrs'') as [|m|m]; [done | | lia].
  by destruct (e'' <=? emax - prec)%Z.
Qed.

Lemma cast_float32_not_nan n : is_nan (cast_float32 n) = false.
Proof.
  unfold cast_float32, binary_normalize, binary_round.
  destruct n as [|m|m]; [done | |];
    destruct (shl_align _ _ _) as [mz ez]; by apply binary_round_aux_not_nan.
Qed.

Lemma impute_value_not_nan v : is_nan (impute_value v) = false.
Proof. unfold impute_value. by destruct v. Qed.

(** ** MultiCategoryEncoding: construction, errors and results *)

Module MultiCategoryEncodingBehaviour.
Import MultiCategoryEncoding MultiCategoryEncodingProofs.

Section Behaviour.
Context `{Framework}.

Lemma reachable_layers_le enc kwargs (self : t) :
  reachable enc kwargs self →
  encoding self = enc ∧
  length (encoding_layers self) = length (filter valid enc) ∧
  length (encoding_layers self) ≤ length (encoding self).
Proof.
  intros Hr. destruct (reachable_invariant _ _ _ Hr) as (_ & He & Hp).
  assert (length (encoding_layers self) = length (filter valid enc)) as Hlen
    by (by rewrite (pattern_length _ _ Hp), installed_length).
  split_and!; [done | done |]. rewrite He, Hlen. apply length_filter.
Qed.

Lemma call_no_layer (self : t) inputs (x : tensor string) :
  encoding_layers self = [] → first (flatten inputs) = Ok x →
  width x = length (encoding self) → encoding self ≠ [] →
  (call self inputs).2 = Raise ValueError.
Proof.
  intros Hnil Hx Hw Hne. rewrite (call_result self inputs x Hx Hw Hne), Hnil.
  by rewrite zip_with_nil_r.
Qed.

(** X1. The configuration of a layer is fixed at construction: [build],
    [call] and [adapt] return a layer with the configuration it had. *)
Theorem get_config_unchanged (self : t) input_shape inputs data :
  get_config (build self input_shape) = get_config self ∧
  get_config (call self inputs).1 = get_config self ∧
  get_config (adapt self data).1 = get_config self.
Proof.
  rewrite !get_config_insert.
  rewrite call_base, call_encoding, adapt_base, adapt_encoding. done.
Qed.

(** X2. [__init__] installs one [StringLookup] per "int" entry and one
    [None] per "none" or "one-hot" entry, whatever else the list holds, and
    every [StringLookup] it installs is a new, unadapted one. *)
Theorem init_layer_counts (enc : list string) kwargs :
  let layers := encoding_layers (__init__ enc kwargs) in
  length (filter (λ l, has_lookup l = true) layers)
    = length (filter (λ e, e = INT) enc) ∧
  length (filter (λ l, has_lookup l = false) layers)
    = length (filter (λ e, e = NONE ∨ e = ONE_HOT) enc) ∧
  Forall (λ l, l = None ∨ l = Some sl_new) layers.
Proof.
  simpl. rewrite init_layers.
  induction enc as [|e enc (IH1 & IH2 & IH3)]; [by repeat split|].
  simpl. rewrite !filter_app, !length_app, !(filter_cons _ e), IH1, IH2.
  unfold installed.
  destruct (String.eqb_spec e NONE) as [->|Hn].
  { rewrite decide_False by done. rewrite decide_True by (by left).
    split_and!; [done | done |]. constructor; [by left | done]. }
  destruct (String.eqb_spec e INT) as [->|Hi].
  { rewrite decide_True by done.
    rewrite decide_False by (by intros [?|?]).
    split_and!; [done | done |]. constructor; [by right | done]. }
  destruct (String.eqb_spec e ONE_HOT) as [->|Ho].
  { rewrite decide_False by done. rewrite decide_True by (by right).
    split_and!; [done | done |]. constructor; [by left | done]. }
  rewrite decide_False by done. rewrite decide_False by (by intros [?|?]).
  done.
Qed.

(** X3. A layer whose encoding list has no "none", "int" or "one-hot" entry
    (the empty list among them) has no encoding layer, and [call] returns
    no batch for it: it raises the exception of [inputs[0]] when the input
    holds no tensor; [InvalidArgumentError], from [tf.split], when the
    encoding list is empty or the batch has not [len(encoding)] columns;
    and otherwise [ValueError], from a concatenation of no column. *)
Theorem call_without_layers enc kwargs (self : t) inputs :
  reachable enc kwargs self → Forall (λ e, ¬ valid e) enc →
  encoding_layers self = [] ∧
  (call self inputs).2
  = match first (flatten inputs) with
    | Raise e => Raise e
    | Ok x =>
        if decide (enc ≠ [] ∧ width x = length enc) then Raise ValueError
        else Raise InvalidArgumentError
    end.
Proof.
  intros Hr Hall. destruct (reachable_layers_le _ _ _ Hr) as (He & Hlen & _).
  assert (encoding_layers self = []) as Hnil.
  { apply length_zero_iff_nil. rewrite Hlen.
    clear -Hall. induction Hall as [|e enc Hv _ IH]; [done|].
    by rewrite filter_cons, decide_False. }
  split; [done|].
  destruct (first (flatten inputs)) as [x|e] eqn:Hx.
  - destruct (decide (enc ≠ [] ∧ width x = length enc)) as [[Hne Hw]|Hn].
    + apply (call_no_layer self inputs x); [done | done | | ]; by rewrite He.
    + destruct (decide (enc = [])) as [Hempty|Hne].
      * by rewrite (call_empty_encoding self inputs x Hx) by (by rewrite He).
      * rewrite (call_wrong_width self inputs x); [done | done |].
        rewrite He. intros Hw. by apply Hn.
  - unfold call. by rewrite Hx.
Qed.

(** X4. [call] rejects an input before it uses any encoding layer: with no
    tensor in [inputs] it raises [IndexError], with a first tensor whose
    last dimension is not [len(encoding)] it raises [InvalidArgumentError],
    and in both cases the layer is returned as it was. *)
Theorem call_rejects_input (self : t) inputs :
  (flatten inputs = [] → call self inputs = (self, Raise IndexError)) ∧
  (∀ x, first (flatten inputs) = Ok x → width x ≠ length (encoding self) →
        call self inputs = (self, Raise InvalidArgumentError)).
Proof.
  split.
  - apply call_no_input.
  - intros x. apply call_wrong_width.
Qed.

(** X5. For a layer in use and a well-formed first tensor, [call] returns a
    batch exactly when the tensor has [len(encoding)] columns, the layer
    has at least one encoding layer, and every column paired with an
    encoding layer can be encoded by it. *)
Theorem call_returns_iff enc kwargs (self : t) inputs (x : tensor string) :
  shape_preserving → reachable enc kwargs self →
  first (flatten inputs) = Ok x → wf x →
  (∃ out, (call self inputs).2 = Ok out) ↔
  (width x = length (encoding self) ∧ encoding_layers self ≠ [] ∧
   ∀ k l, encoding_layers self !! k = Some l →
     ∃ col, encode_column l (column k x) = Ok col).
Proof.
  intros Hshape Hr Hx Hwf.
  destruct (reachable_layers_le _ _ _ Hr) as (He & _ & Hle).
  split.
  - intros [out Hcall]. pose proof (call_Ok_width _ _ _ _ Hx Hcall) as Hw.
    split_and!; [done | |].
    + intros Hnil.
      pose proof (call_Ok_encoding self inputs out Hcall) as Hne.
      by rewrite (call_no_layer self inputs x Hnil Hx Hw Hne) in Hcall.
    + intros k l Hl.
      destruct (call_columns self inputs x out Hshape Hle Hx Hwf Hw Hcall)
        as (_ & _ & _ & Hcols).
      destruct (Hcols k l Hl) as (col & Hcol & _). eauto.
  - intros (Hw & Hne & Hcols). by eapply call_returns.
Qed.

(** X6. A batch returned by [call] holds no NaN, in any column: the
    converted numbers have their NaN replaced by 0, and the cast of an
    index is a number. *)
Theorem call_never_NaN enc kwargs (self : t) inputs (x : tensor string) out :
  shape_preserving → reachable enc kwargs self →
  first (flatten inputs) = Ok x → wf x →
  (call self inputs).2 = Ok out →
  ∀ j i v, cell out j i = Some v → is_nan v = false.
Proof.
  intros Hshape Hr Hx Hwf Hcall j i v Hv.
  destruct (reachable_layers_le _ _ _ Hr) as (He & _ & Hle).
  pose proof (call_Ok_width _ _ _ _ Hx Hcall) as Hw.
  destruct (call_columns self inputs x out Hshape Hle Hx Hwf Hw Hcall)
    as (Hwo & _ & Hwfo & Hcols).
  assert (i < length (encoding_layers self)) as Hi.
  { unfold cell in Hv. destruct (rows out !! j) as [r|] eqn:Hr'; simpl in Hv; [|done].
    pose proof (Forall_lookup_1 _ _ _ _ Hwfo Hr') as Hlen. simpl in Hlen.
    apply lookup_lt_Some in Hv. lia. }
  destruct (lookup_lt_is_Some_2 _ _ Hi) as [l Hl].
  destruct (Hcols i l Hl) as (col & Hcol & Hcell).
  rewrite Hcell in Hv. destruct l as [layer|]; simpl in Hcol.
  - apply fmap_Ok in Hcol as (indices & _ & ->).
    rewrite cell_tensor_map in Hv.
    destruct (cell indices j 0) as [n|]; simpl in Hv; [|done].
    injection Hv as <-. apply cast_float32_not_nan.
  - apply impute_Ok in Hcol as (number & _ & ->).
    rewrite cell_tensor_map in Hv.
    destruct (cell number j 0) as [u|]; simpl in Hv; [|done].
    injection Hv as <-. apply impute_value_not_nan.
Qed.

(** X7. A batch returned by [call] is rectangular, has one row per row of
    the input and one column per "none", "int" or "one-hot" entry of the
    encoding list; it is never wider than the input. *)
Theorem call_result_shape enc kwargs (self : t) inputs (x : tensor string) out :
  shape_preserving → reachable enc kwargs self →
  first (flatten inputs) = Ok x → wf x →
  (call self inputs).2 = Ok out →
  wf out ∧ batch_size out = batch_size x ∧
  width out = length (filter valid enc) ∧ width out ≤ width x.
Proof.
  intros Hshape Hr Hx Hwf Hcall.
  destruct (reachable_layers_le _ _ _ Hr) as (He & Hlen & Hle).
  pose proof (call_Ok_width _ _ _ _ Hx Hcall) as Hw.
  destruct (call_columns self inputs x out Hshape Hle Hx Hwf Hw Hcall)
    as (Hwo & Hbo & Hwfo & _).
  split_and!; [done | done | congruence | lia].
Qed.

(** *** [adapt]: when it returns, what it leaves when it does not *)

Lemma traverse_slice_outside (data : list (tensor string)) i :
  ¬ Forall (λ x, i < width x) data →
  traverse (λ x, tf_slice x (0, i) (-1, 1)%Z) data = Raise InvalidArgumentError.
Proof.
  induction data as [|x data IH]; intros Hn; [destruct Hn; constructor|].
  simpl. destruct (decide (i < width x)) as [Hlt|Hge].
  - rewrite tf_slice_column by done. simpl.
    rewrite IH; [done|]. intros Hall. apply Hn. by constructor.
  - by rewrite tf_slice_outside by lia.
Qed.

Lemma traverse_slice_inside (data : list (tensor string)) i :
  Forall (λ x, i < width x) data →
  traverse (λ x, tf_slice x (0, i) (-1, 1)%Z) data = Ok (map (column i) data).
Proof.
  intros Hall. apply traverse_total. eapply Forall_impl; [exact Hall|].
  intros x Hx. by apply tf_slice_column.
Qed.

Lemma adapt_loop_returns_iff (layers : list (option StringLookup)) index data :
  ((adapt_loop index layers data).2 = Ok () ↔
   ∀ k layer, layers !! k = Some (Some layer) →
     Forall (λ x, index + k < width x) data) ∧
  ((adapt_loop index layers data).2 = Ok () ∨
   (adapt_loop index layers data).2 = Raise InvalidArgumentError).
Proof.
  revert index. induction layers as [|l layers IH]; intros index.
  { split; [|by left]. split; [by intros _ k layer | done]. }
  destruct (IH (S index)) as [[IH1 IH2] IH3].
  assert ((∀ k layer, (l :: layers) !! k = Some (Some layer) →
             Forall (λ x, index + k < width x) data) →
          ∀ k layer, layers !! k = Some (Some layer) →
             Forall (λ x, S index + k < width x) data) as Htail.
  { intros Hk k layer Hl. eapply Forall_impl; [exact (Hk (S k) layer Hl)|].
    intros x Hx; simpl in *. lia. }
  assert ((∀ k layer, layers !! k = Some (Some layer) →
             Forall (λ x, S index + k < width x) data) →
          ∀ k layer, layers !! k = Some (Some layer) →
             Forall (λ x, index + S k < width x) data) as Hcons.
  { intros Hk k layer Hl. eapply Forall_impl; [exact (Hk k layer Hl)|].
    intros x Hx; simpl in *. lia. }
  destruct l as [layer0|]; cbn [adapt_loop].
  - destruct (decide (Forall (λ x, index < width x) data)) as [Hall|Hn].
    + rewrite traverse_slice_inside by done.
      destruct (adapt_loop (S index) layers data) as [ls r]; cbn [fst snd] in *.
      split; [|done]. split.
      * intros Hr [|k] layer Hk.
        -- by rewrite Nat.add_0_r.
        -- exact (Hcons (IH1 Hr) k layer Hk).
      * intros Hk. by apply IH2, Htail.
    + rewrite traverse_slice_outside by done. cbn [fst snd].
      split; [|by right]. split; [done|].
      intros Hk. destruct Hn. specialize (Hk 0 layer0 eq_refl).
      by rewrite Nat.add_0_r in Hk.
  - destruct (adapt_loop (S index) layers data) as [ls r]; cbn [fst snd] in *.
    split; [|done]. split.
    + intros Hr [|k] layer Hk; [done|]. exact (Hcons (IH1 Hr) k layer Hk).
    + intros Hk. by apply IH2, Htail.
Qed.

(** X8. [adapt] returns exactly when every batch of the dataset reaches
    every position that holds a [StringLookup]: each batch has more columns
    than the position's index. Otherwise it raises [InvalidArgumentError],
    from the slice. Positions without an encoding layer ask nothing of the
    dataset. *)
Theorem adapt_returns_iff (self : t) (data : list (tensor string)) :
  ((adapt self data).2 = Ok () ↔
   ∀ k layer, encoding_layers self !! k = Some (Some layer) →
     Forall (λ x, k < width x) data) ∧
  ((adapt self data).2 = Ok () ∨
   (adapt self data).2 = Raise InvalidArgumentError).
Proof.
  unfold adapt.
  pose proof (adapt_loop_returns_iff (encoding_layers self) 0 data) as Hloop.
  destruct (adapt_loop 0 (encoding_layers self) data) as [ls r]. exact Hloop.
Qed.



Lemma reachable_no_lookup enc kwargs (self : t) :
  Forall (λ e, e ≠ INT) enc → reachable enc kwargs self →
  Forall (λ l, l = None) (encoding_layers self).
Proof.
  intros Hall Hr. destruct (reachable_invariant _ _ _ Hr) as (_ & _ & Hp).
  assert (Forall (λ b, b = false) (map has_lookup (concat (map installed enc)))) as Hf.
  { clear -Hall. induction Hall as [|e enc He _ IH]; [constructor|].
    simpl. rewrite List.map_app. apply Forall_app. split; [|done].
    unfold installed.
    destruct (String.eqb e NONE); [by repeat constructor|].
    destruct (String.eqb_spec e INT); [done|].
    destruct (String.eqb e ONE_HOT); by repeat constructor. }
  rewrite <-Hp in Hf. clear -Hf.
  induction (encoding_layers self) as [|l ls IH]; [constructor|].
  inversion Hf as [|? ? Hl Hls]; subst. constructor; [by destruct l | by apply IH].
Qed.

Lemma adapt_loop_no_lookup (layers : list (option StringLookup)) index data :
  Forall (λ l, l = None) layers → adapt_loop index layers data = (layers, Ok ()).
Proof.
  intros Hall. revert index. induction Hall as [|l layers -> _ IH]; intros index; [done|].
  simpl. by rewrite IH.
Qed.

(** X10. A layer without an "int" entry has nothing to build or fit: [build]
    returns the layer as it is, and so does [adapt], without an exception,
    whatever the dataset (its batches may have any number of columns). *)
Theorem no_int_nothing_to_fit enc kwargs (self : t) input_shape data :
  Forall (λ e, e ≠ INT) enc → reachable enc kwargs self →
  build self input_shape = self ∧ adapt self data = (self, Ok ()).
Proof.
  intros Hall Hr. pose proof (reachable_no_lookup _ _ _ Hall Hr) as Hnone.
  destruct self as [b e ls]; simpl in *. split.
  - unfold build, set_encoding_layers; simpl. f_equal.
    clear -Hnone. induction Hnone as [|l ls -> _ IH]; [done|]. simpl. by rewrite IH.
  - unfold adapt; simpl. by rewrite adapt_loop_no_lookup.
Qed.

(** X11. What [adapt] fits depends on the columns that have a
    [StringLookup] only: two datasets that [adapt] accepts and that agree
    on each of those columns leave the same layer, whatever their other
    columns hold. *)
Theorem adapt_other_columns (self : t) (data data' : list (tensor string)) :
  (adapt self data).2 = Ok () → (adapt self data').2 = Ok () →
  (∀ k layer, encoding_layers self !! k = Some (Some layer) →
     map (column k) data = map (column k) data') →
  (adapt self data).1 = (adapt self data').1.
Proof.
  intros Hok Hok' Hsame. unfold adapt in *.
  destruct (adapt_loop 0 (encoding_layers self) data) as [ls r] eqn:Hrun.
  destruct (adapt_loop 0 (encoding_layers self) data') as [ls' r'] eqn:Hrun'.
  simpl in *. subst r r'. unfold set_encoding_layers. f_equal.
  pose proof (adapt_loop_pattern (encoding_layers self) 0 data) as Hp.
  pose proof (adapt_loop_pattern (encoding_layers self) 0 data') as Hp'.
  rewrite Hrun in Hp. rewrite Hrun' in Hp'. simpl in *.
  apply pattern_length in Hp, Hp'.
  apply list_eq. intros i.
  destruct (encoding_layers self !! i) as [l|] eqn:Hl.
  - pose proof (adapt_loop_Ok _ 0 data ls Hrun i l Hl) as H1.
    pose proof (adapt_loop_Ok _ 0 data' ls' Hrun' i l Hl) as H2.
    destruct l as [layer|].
    + destruct H1 as [_ ->]. destruct H2 as [_ ->]. simpl.
      by rewrite (Hsame i layer Hl).
    + by rewrite H1, H2.
  - apply lookup_ge_None in Hl.
    rewrite (lookup_ge_None_2 ls) by lia. by rewrite (lookup_ge_None_2 ls') by lia.
Qed.

(** *** Tables with numeric columns only *)

Lemma tensor_ext {A} (t1 t2 : tensor A) :
  wf t1 → wf t2 → width t1 = width t2 → batch_size t1 = batch_size t2 →
  (∀ j i a, cell t1 j i = Some a → cell t2 j i = Some a) → t1 = t2.
Proof.
  destruct t1 as [w1 rs1], t2 as [w2 rs2]. unfold wf, batch_size, cell; simpl.
  intros Hwf1 Hwf2 -> Hb Hcells. f_equal. apply list_eq. intros j.
  destruct (rs1 !! j) as [r1|] eqn:H1.
  - destruct (rs2 !! j) as [r2|] eqn:H2.
    + f_equal. apply list_eq. intros i.
      pose proof (Forall_lookup_1 _ _ _ _ Hwf1 H1) as Hl1.
      pose proof (Forall_lookup_1 _ _ _ _ Hwf2 H2) as Hl2. simpl in *.
      destruct (r1 !! i) as [a|] eqn:Ha.
      * specialize (Hcells j i a). rewrite H1, H2 in Hcells. simpl in Hcells.
        symmetry. by apply Hcells.
      * apply lookup_ge_None in Ha. symmetry. apply lookup_ge_None. lia.
    + apply lookup_lt_Some in H1. apply lookup_ge_None in H2. lia.
  - apply lookup_ge_None in H1. symmetry. apply lookup_ge_None. lia.
Qed.

Lemma cells_traverse {A B} (f : A → result B) (x : tensor A) :
  (∀ j i a, cell x j i = Some a → ∃ b, f a = Ok b) →
  ∃ u, tensor_traverse f x = Ok u.
Proof.
  intros Hcells. unfold tensor_traverse.
  destruct (traverse_exists (traverse f) (rows x)) as [rs Hrs].
  { apply Forall_lookup. intros j r Hr. apply traverse_exists.
    apply Forall_lookup. intros i a Ha. apply (Hcells j i a).
    unfold cell. by rewrite Hr. }
  rewrite Hrs. simpl. eauto.
Qed.

Lemma tensor_traverse_wf {A B} (f : A → result B) (x : tensor A) (u : tensor B) :
  tensor_traverse f x = Ok u → wf x →
  wf u ∧ width u = width x ∧ batch_size u = batch_size x.
Proof.
  rewrite tensor_traverse_Ok. intros [Hw Hrs] Hwf. unfold wf, batch_size in *.
  split_and!; [| done | by rewrite (Forall2_length _ _ _ Hrs)].
  rewrite Hw. clear Hw.
  induction Hrs as [|r r' rs rs' Hr _ IH]; [constructor|].
  inversion Hwf; subst. constructor; [|by apply IH].
  by rewrite <-(Forall2_length _ _ _ Hr).
Qed.

Lemma tensor_map_wf {A B} (f : A → B) (t : tensor A) :
  wf t → wf (tensor_map f t).
Proof.
  unfold wf, tensor_map; simpl. intros Hwf. apply Forall_fmap.
  eapply Forall_impl; [exact Hwf|]. intros r; simpl. by rewrite length_map.
Qed.

Lemma numeric_units (x : tensor string) n (layers : list (option StringLookup)) outs :
  Forall (λ l, l = None) layers → wf x → width x = n →
  Forall2 (λ cl o, encode_column cl.2 cl.1 = Ok o)
    (zip (map (λ i, column i x) (seq 0 n)) layers) outs →
  Forall (unit_column (batch_size x)) outs.
Proof.
  intros Hnone Hwf Hw Htr. apply Forall_forall. intros o Ho.
  apply list_elem_of_lookup in Ho as [i Hi].
  destruct (Forall2_lookup_r _ _ _ _ _ Htr Hi) as ([c l] & Hcl & Henc).
  simpl in Henc. apply zip_columns_inv in Hcl as (-> & Hlt & Hl).
  rewrite (Forall_lookup_1 _ _ _ _ Hnone Hl) in Henc. simpl in Henc.
  apply impute_Ok in Henc as (number & Hn & ->).
  apply tensor_map_shape. eapply tensor_traverse_shape; [exact Hn|].
  apply column_unit; [done | lia].
Qed.

Lemma numeric_call_cells (self : t) inputs (x : tensor string) out :
  Forall (λ l, l = None) (encoding_layers self) →
  length (encoding_layers self) = length (encoding self) →
  first (flatten inputs) = Ok x → wf x → width x = length (encoding self) →
  (call self inputs).2 = Ok out →
  wf out ∧ width out = width x ∧ batch_size out = batch_size x ∧
  ∀ j i s, cell x j i = Some s →
    ∃ v, to_number s = Ok v ∧ cell out j i = Some (impute_value v).
Proof.
  intros Hnone Hlen Hx Hwf Hw Hcall.
  pose proof (call_Ok_encoding self inputs out Hcall) as Henc_ne.
  rewrite (call_result self inputs x Hx Hw Henc_ne) in Hcall.
  apply bind_Ok in Hcall as (outs & Htr & Hjoin). apply traverse_Ok in Htr.
  pose proof (numeric_units x _ _ outs Hnone Hwf Hw Htr) as Hunits.
  assert (outs ≠ []) as Hne by (intros ->; by vm_compute in Hjoin).
  destruct (join_cells outs _ Hne Hunits) as (t' & Ht & Hwt & Hbt & Hwft & Hcells).
  rewrite Hjoin in Ht. injection Ht as <-.
  assert (length outs = length (encoding self)) as Hlo.
  { rewrite <-(Forall2_length _ _ _ Htr), length_zip_with, length_map, length_seq. lia. }
  split_and!; [done | congruence | done |].
  intros j i s Hs.
  assert (i < length (encoding_layers self)) as Hi.
  { unfold cell in Hs. destruct (rows x !! j) as [r|] eqn:Hr; simpl in Hs; [|done].
    pose proof (Forall_lookup_1 _ _ _ _ Hwf Hr) as Hl. simpl in Hl.
    apply lookup_lt_Some in Hs. lia. }
  destruct (lookup_lt_is_Some_2 _ _ Hi) as [l Hl].
  assert (length (encoding_layers self) ≤ length (encoding self)) as Hle by lia.
  pose proof (zip_columns_lookup x (length (encoding self)) _ i l Hle Hl) as Hzip.
  destruct (Forall2_lookup_l _ _ _ _ _ Htr Hzip) as (o & Ho & Henc).
  simpl in Henc. rewrite (Forall_lookup_1 _ _ _ _ Hnone Hl) in Henc. simpl in Henc.
  apply impute_Ok in Henc as (number & Hn & ->).
  rewrite <-cell_column in Hs.
  destruct (tensor_traverse_cell _ _ _ _ _ _ Hn Hs) as (v & Hv & Hcv).
  exists v. split; [done|]. by rewrite (Hcells j i _ Ho), cell_tensor_map, Hcv.
Qed.

Lemma numeric_call_returns (self : t) inputs (x : tensor string) :
  Forall (λ l, l = None) (encoding_layers self) →
  encoding_layers self ≠ [] →
  length (encoding_layers self) = length (encoding self) →
  first (flatten inputs) = Ok x → wf x → width x = length (encoding self) →
  (∀ j i s, cell x j i = Some s → ∃ v, to_number s = Ok v) →
  ∃ out, (call self inputs).2 = Ok out.
Proof.
  intros Hnone Hne Hlen Hx Hwf Hw Hparse.
  assert (encoding self ≠ []) as Henc_ne.
  { intros He. rewrite He in Hlen. by destruct (encoding_layers self). }
  rewrite (call_result self inputs x Hx Hw Henc_ne).
  destruct (traverse_exists (λ cl, encode_column cl.2 cl.1)
              (zip (map (λ i, column i x) (seq 0 (length (encoding self))))
                   (encoding_layers self)))
    as (outs & Houts).
  { apply Forall_lookup. intros i [c l] Hcl.
    apply zip_columns_inv in Hcl as (-> & _ & Hl). simpl.
    rewrite (Forall_lookup_1 _ _ _ _ Hnone Hl). simpl.
    destruct (cells_traverse to_number (column i x)) as [number Hn].
    { intros j i' s Hs. destruct i' as [|i'].
      - rewrite cell_column in Hs. by eapply Hparse.
      - unfold cell, column in Hs; simpl in Hs. rewrite list_lookup_fmap in Hs.
        destruct (rows x !! j) as [r|]; simpl in Hs; [|done].
        apply lookup_lt_Some in Hs. rewrite length_take in Hs. lia. }
    exists (tensor_map impute_value number). apply impute_Ok. eauto. }
  rewrite Houts; simpl. apply traverse_Ok in Houts.
  pose proof (numeric_units x _ _ outs Hnone Hwf Hw Houts) as Hunits.
  assert (outs ≠ []) as Hne'.
  { intros ->. apply Forall2_length in Houts.
    rewrite length_zip_with, length_map, length_seq in Houts. simpl in Houts.
    destruct (encoding_layers self); [done | simpl in *; lia]. }
  destruct (join_cells outs _ Hne' Hunits) as (t' & Ht & _). eauto.
Qed.

(** X12. For a non-empty encoding list of "none" and "one-hot" entries
    only, [call] is the conversion of the whole batch, cell by cell: on a
    batch of [len(encoding)] columns it returns a batch exactly when every
    string of the batch converts to a number, and then the result is the
    batch of these numbers, NaN replaced by 0, in the shape of the input. *)
Theorem call_numeric_table enc kwargs (self : t) inputs (x : tensor string) :
  Forall (λ e, e = NONE ∨ e = ONE_HOT) enc → enc ≠ [] →
  reachable enc kwargs self →
  first (flatten inputs) = Ok x → wf x → width x = length enc →
  ∀ out, (call self inputs).2 = Ok out ↔
         ∃ number, tensor_traverse to_number x = Ok number ∧
                   out = tensor_map impute_value number.
Proof.
  intros Hkinds Hne Hr Hx Hwf Hw.
  assert (Forall valid enc) as Hall.
  { eapply Forall_impl; [exact Hkinds|]. intros e [->| ->]; unfold valid; auto. }
  assert (Forall (λ e, e ≠ INT) enc) as Hnoint.
  { eapply Forall_impl; [exact Hkinds|]. by intros e [->| ->]. }
  pose proof (reachable_no_lookup _ _ _ Hnoint Hr) as Hnone.
  pose proof (reachable_length _ _ _ Hall Hr) as Hlen.
  destruct (reachable_invariant _ _ _ Hr) as (_ & He & _).
  rewrite <-He in Hw, Hlen.
  assert (∀ out, (call self inputs).2 = Ok out →
            ∃ number, tensor_traverse to_number x = Ok number ∧
                      out = tensor_map impute_value number) as Hforward.
  { intros out Hcall.
    destruct (numeric_call_cells self inputs x out Hnone Hlen Hx Hwf Hw Hcall)
      as (Hwfo & Hwo & Hbo & Hcells).
    destruct (cells_traverse to_number x) as [number Hn].
    { intros j i s Hs. destruct (Hcells j i s Hs) as (v & Hv & _). eauto. }
    exists number. split; [done|].
    destruct (tensor_traverse_wf _ _ _ Hn Hwf) as (Hwfn & Hwn & Hbn).
    symmetry. apply tensor_ext.
    - by apply tensor_map_wf.
    - done.
    - simpl. congruence.
    - unfold batch_size in *; simpl. rewrite length_map. congruence.
    - intros j i a Ha. rewrite cell_tensor_map in Ha.
      destruct (cell number j i) as [b|] eqn:Hb; simpl in Ha; [|done].
      injection Ha as <-.
      assert (∃ s, cell x j i = Some s) as [s Hs].
      { apply tensor_traverse_Ok in Hn as [_ Hrows]. unfold cell in *.
        destruct (rows number !! j) as [rn|] eqn:Hrn; simpl in Hb; [|done].
        destruct (Forall2_lookup_r _ _ _ _ _ Hrows Hrn) as (r & Hrx & Hrr).
        destruct (Forall2_lookup_r _ _ _ _ _ Hrr Hb) as (s & Hs & _).
        exists s. by rewrite Hrx. }
      destruct (Hcells j i s Hs) as (v & Hv & Hout).
      destruct (tensor_traverse_cell _ _ _ _ _ _ Hn Hs) as (b' & Hb' & Hcb).
      rewrite Hb in Hcb. injection Hcb as <-.
      rewrite Hv in Hb'. injection Hb' as <-. done. }
  intros out. split; [apply Hforward|].
  intros (number & Hn & ->).
  destruct (numeric_call_returns self inputs x) as [out' Hout']; try done.
  - intros Hnil. rewrite Hnil in Hlen. simpl in Hlen.
    rewrite He in Hlen. by destruct enc.
  - intros j i s Hs.
    destruct (tensor_traverse_cell _ _ _ _ _ _ Hn Hs) as (v & Hv & _). eauto.
  - destruct (Hforward out' Hout') as (number' & Hn' & ->).
    rewrite Hn in Hn'. by injection Hn' as <-.
Qed.

(** *** The configuration again *)

Lemma installed_fresh (enc : list string) :
  Forall (λ l, l = None ∨ l = Some sl_new) (concat (map installed enc)).
Proof.
  induction enc as [|e enc IH]; [constructor|].
  simpl. apply Forall_app. split; [|done]. unfold installed.
  destruct (String.eqb e NONE); [repeat constructor; by left|].
  destruct (String.eqb e INT); [repeat constructor; by right|].
  destruct (String.eqb e ONE_HOT); repeat constructor; by left.
Qed.

(** X13. The configuration carries nothing of the encoding layers: the
    layer built from the configuration of a layer in use has the encoding
    layers of a newly constructed layer, every [StringLookup] as
    [__init__] makes it, whatever [adapt] has fitted before. *)
Theorem from_config_unfitted enc kwargs (self : t) :
  reachable enc kwargs self →
  ∃ self',
    from_config (get_config self) = Ok self' ∧
    encoding_layers self' = encoding_layers (__init__ enc kwargs) ∧
    Forall (λ l, l = None ∨ l = Some sl_new) (encoding_layers self').
Proof.
  intros Hr. destruct (reachable_invariant _ _ _ Hr) as (_ & He & _).
  unfold from_config. rewrite get_config_insert, lookup_insert_eq.
  eexists. split; [done|]. rewrite !init_layers, He.
  split; [done | apply installed_fresh].
Qed.

End Behaviour.
End MultiCategoryEncodingBehaviour.

(** ** TextVectorizationWithTokenizer: the shape of the result *)

Module TextVectorizationWithTokenizerBehaviour.
Import TextVectorizationWithTokenizer TextVectorizationWithTokenizerProofs.

Lemma padded_wf (r : list (list Z)) : wf (padded r).
Proof.
  unfold wf. apply Forall_forall. intros row Hrow.
  apply list_elem_of_lookup in Hrow as [j Hj]. rewrite padded_row in Hj.
  destruct (r !! j) as [row0|] eqn:Hr; simpl in Hj; [|done].
  injection Hj as <-. pose proof (padded_width_le r j row0 Hr) as Hle.
  rewrite length_app, length_replicate. simpl in *. lia.
Qed.

Lemma padded_longest (r : list (list Z)) :
  r ≠ [] → ∃ j row, r !! j = Some row ∧ length row = width (padded r).
Proof.
  intros Hne. unfold padded; simpl.
  assert (map length r ≠ []) as Hne' by (by destruct r).
  pose proof (max_list_elem_of _ Hne') as Hin.
  apply list_elem_of_lookup in Hin as [j Hj].
  change (map length r) with (length <$> r) in Hj. rewrite list_lookup_fmap in Hj.
  destruct (r !! j) as [row|] eqn:Hr; simpl in Hj; [|done].
  exists j, row. split; [done|]. by injection Hj.
Qed.

Lemma dict3_lookup {V} (v1 v2 v3 : V) :
  let d := dict [("input_word_ids", v1); ("input_mask", v2); ("input_type_ids", v3)] in
  d !! "input_word_ids" = Some v1 ∧ d !! "input_mask" = Some v2 ∧
  d !! "input_type_ids" = Some v3.
Proof.
  assert (dict [("input_word_ids", v1); ("input_mask", v2); ("input_type_ids", v3)]
          = <["input_type_ids" := v3]>
              (<["input_mask" := v2]> (<["input_word_ids" := v1]> ∅))) as -> by done.
  split_and!.
  - by rewrite lookup_insert_ne, lookup_insert_ne, lookup_insert_eq.
  - by rewrite lookup_insert_ne, lookup_insert_eq.
  - by rewrite lookup_insert_eq.
Qed.

(** X14. Whenever [call] returns, the batch was not empty, the three
    tensors of the result are rectangular, every row as long as the tensor
    is wide, and the width is the length of the longest encoded sentence:
    some sentence fills its row without padding and its mask row is 1
    throughout. *)
Theorem call_rectangular (self : t) (input : list string)
    (inputs : gmap string (tensor Z)) :
  call self input = Ok inputs →
  input ≠ [] ∧
  ∃ (input_word_ids input_mask input_type_ids : tensor Z),
    inputs !! "input_word_ids" = Some input_word_ids ∧
    inputs !! "input_mask" = Some input_mask ∧
    inputs !! "input_type_ids" = Some input_type_ids ∧
    wf input_word_ids ∧ wf input_mask ∧ wf input_type_ids ∧
    ∃ j s, input !! j = Some s ∧
      rows input_word_ids !! j
      = Some (convert_tokens_to_ids (tokenizer self) ["[CLS]"]
              ++ encode_sentence self s) ∧
      rows input_mask !! j = Some (replicate (width input_word_ids) 1%Z).
Proof.
  unfold call. intros Hcall. apply bert_encode_Ok in Hcall as [Hne ->].
  split; [done|].
  set (r := map (λ s, convert_tokens_to_ids (tokenizer self) ["[CLS]"]
                      ++ encode_sentence self s) input).
  destruct (dict3_lookup (padded r) (padded (ones r)) (padded (zeros r)))
    as (H1 & H2 & H3).
  eexists _, _, _.
  split; [exact H1|]. split; [exact H2|]. split; [exact H3|].
  split; [apply padded_wf|]. split; [apply padded_wf|].
  split; [apply padded_wf|].
  destruct (padded_longest r) as (j & row & Hrow & Hlen).
  { unfold r. by destruct input. }
  assert (∃ s, input !! j = Some s ∧
               row = convert_tokens_to_ids (tokenizer self) ["[CLS]"]
                     ++ encode_sentence self s) as (s & Hs & ->).
  { unfold r in Hrow. change (map ?f input) with (f <$> input) in Hrow.
    rewrite list_lookup_fmap in Hrow.
    destruct (input !! j) as [s|]; simpl in Hrow; [|done].
    exists s. split; [done|]. by injection Hrow. }
  exists j, s. split; [done|]. split.
  - rewrite padded_row, Hrow. simpl. rewrite Hlen, Nat.sub_diag. simpl.
    by rewrite app_nil_r.
  - assert (width (padded (ones r)) = width (padded r)) as Hw1
      by apply padded_width_like.
    rewrite padded_row, Hw1.
    unfold ones. change (map (map (λ _ : Z, 1%Z)) r) with (map (λ _ : Z, 1%Z) <$> r).
    rewrite list_lookup_fmap, Hrow. simpl.
    rewrite length_map, map_const_replicate, Hlen, Nat.sub_diag. simpl.
    by rewrite app_nil_r.
Qed.

(** X15. With a tokenizer that converts token by token (the id of a list
    is the list of the ids, as for BERT's vocabulary lookup) to int32
    values, on a batch that is not empty: the row of a sentence of [n]
    tokens is the id of '[CLS]', the ids of its tokens, the id of '[SEP]'
    and then 0; its mask row has [n + 2] ones; and the tensors are as wide
    as the longest sentence has tokens, plus two. *)
Theorem call_token_by_token (self : t) (id : string → Z) (input : list string) :
  (∀ tokens, convert_tokens_to_ids (tokenizer self) tokens = map id tokens) →
  (∀ token, int32_range (id token)) →
  input ≠ [] →
  ∃ (inputs : gmap string (tensor Z)) (input_word_ids input_mask : tensor Z),
    call self input = Ok inputs ∧
    inputs !! "input_word_ids" = Some input_word_ids ∧
    inputs !! "input_mask" = Some input_mask ∧
    width input_word_ids
    = max_list (map (λ s, length (tokenize (tokenizer self) s) + 2) input) ∧
    ∀ j s, input !! j = Some s →
      let tokens := tokenize (tokenizer self) s in
      let n := length tokens in
      rows input_word_ids !! j
      = Some (id "[CLS]" :: map id tokens ++ id "[SEP]"
              :: replicate (width input_word_ids - (n + 2)) 0%Z) ∧
      rows input_mask !! j
      = Some (replicate (n + 2) 1%Z
              ++ replicate (width input_word_ids - (n + 2)) 0%Z).
Proof.
  intros Hid Hrange Hne. unfold call. rewrite bert_encode_returns; [|done| |].
  2: { rewrite Hid. split; [done|].
       apply Forall_fmap, Forall_forall. intros token _. apply Hrange. }
  2: { split.
       - destruct input as [|s input]; [done|]. simpl.
         unfold encode_sentence at 1. rewrite Hid.
         destruct (tokenize (tokenizer self) s); discriminate.
       - apply Forall_concat, Forall_fmap, Forall_forall. intros s _. simpl.
         unfold encode_sentence. rewrite Hid.
         apply Forall_fmap, Forall_forall. intros token _. apply Hrange. }
  set (r := map (λ s, convert_tokens_to_ids (tokenizer self) ["[CLS]"]
                      ++ encode_sentence self s) input).
  assert (∀ s, convert_tokens_to_ids (tokenizer self) ["[CLS]"] ++ encode_sentence self s
               = id "[CLS]" :: map id (tokenize (tokenizer self) s) ++ [id "[SEP]"])
    as Hrow.
  { intros s. unfold encode_sentence. rewrite !Hid, List.map_app. done. }
  assert (∀ s, length (convert_tokens_to_ids (tokenizer self) ["[CLS]"]
                       ++ encode_sentence self s)
               = length (tokenize (tokenizer self) s) + 2) as Hlen.
  { intros s. rewrite Hrow. simpl. rewrite length_app, length_map. simpl. lia. }
  destruct (dict3_lookup (padded r) (padded (ones r)) (padded (zeros r)))
    as (H1 & H2 & _).
  eexists _, _, _. split; [done|]. split; [exact H1|]. split; [exact H2|].
  split.
  - unfold padded, r; simpl. f_equal. rewrite map_map. apply map_ext. apply Hlen.
  - intros j s Hs.
    assert (r !! j = Some (convert_tokens_to_ids (tokenizer self) ["[CLS]"]
                           ++ encode_sentence self s)) as Hr.
    { unfold r. change (map ?f input) with (f <$> input).
      by rewrite list_lookup_fmap, Hs. }
    split.
    + rewrite padded_row, Hr. simpl. rewrite Hlen, Hrow. simpl.
      by rewrite <-app_assoc.
    + assert (width (padded (ones r)) = width (padded r)) as Hw1
        by apply padded_width_like.
      rewrite padded_row, Hw1.
      unfold ones.
      change (map (map (λ _ : Z, 1%Z)) r) with (map (λ _ : Z, 1%Z) <$> r).
      rewrite list_lookup_fmap, Hr. simpl.
      by rewrite length_map, map_const_replicate, Hlen.
Qed.

Lemma mask_cells (r : list (list Z)) j i :
  match r !! j with
  | None => cell (padded r) j i = None ∧ cell (padded (ones r)) j i = None
  | Some row =>
      if decide (i < length row)
      then cell (padded r) j i = row !! i ∧
           cell (padded (ones r)) j i = Some 1%Z
      else if decide (i < width (padded r))
      then cell (padded r) j i = Some 0%Z ∧
           cell (padded (ones r)) j i = Some 0%Z
      else cell (padded r) j i = None ∧
           cell (padded (ones r)) j i = None
  end.
Proof.
  assert (width (padded (ones r)) = width (padded r)) as Hw1
    by apply padded_width_like.
  unfold cell. rewrite !padded_row, Hw1. unfold ones.
  change (map (map (λ _ : Z, 1%Z)) r) with (map (λ _ : Z, 1%Z) <$> r).
  rewrite list_lookup_fmap.
  destruct (r !! j) as [row|] eqn:Hr; simpl; [|done].
  pose proof (padded_width_le r j row Hr) as Hle. simpl in Hle.
  rewrite length_map, map_const_replicate.
  case_decide as Hi.
  - split.
    + by rewrite lookup_app_l.
    + rewrite lookup_app_l by (by rewrite length_replicate).
      by apply lookup_replicate_2.
  - case_decide as Hi'.
    + split.
      * rewrite lookup_app_r by lia. apply lookup_replicate_2. lia.
      * rewrite lookup_app_r by (rewrite length_replicate; lia).
        rewrite length_replicate. apply lookup_replicate_2. lia.
    + split.
      * apply lookup_ge_None. rewrite length_app, length_replicate. lia.
      * apply lookup_ge_None. rewrite length_app, !length_replicate. lia.
Qed.

(** X16. Whenever [call] returns, the mask of the result tells the
    padding: [input_mask] holds only 0 and 1, it has a cell exactly where
    [input_word_ids] has one, and wherever the mask is 0 the word id is
    0. *)
Theorem call_mask_marks_padding (self : t) (input : list string)
    (inputs : gmap string (tensor Z)) :
  call self input = Ok inputs →
  ∃ (input_word_ids input_mask : tensor Z),
    inputs !! "input_word_ids" = Some input_word_ids ∧
    inputs !! "input_mask" = Some input_mask ∧
    ∀ j i,
      (cell input_mask j i = None ∨ cell input_mask j i = Some 0%Z ∨
       cell input_mask j i = Some 1%Z) ∧
      (cell input_mask j i = None ↔ cell input_word_ids j i = None) ∧
      (cell input_mask j i = Some 0%Z → cell input_word_ids j i = Some 0%Z).
Proof.
  unfold call. intros Hcall. apply bert_encode_Ok in Hcall as [_ ->].
  set (r := map (λ s, convert_tokens_to_ids (tokenizer self) ["[CLS]"]
                      ++ encode_sentence self s) input).
  destruct (dict3_lookup (padded r) (padded (ones r)) (padded (zeros r)))
    as (H1 & H2 & _).
  eexists _, _. split; [exact H1|]. split; [exact H2|].
  intros j i. pose proof (mask_cells r j i) as Hp.
  destruct (r !! j) as [row|]; [|destruct Hp as [-> ->]; by auto].
  destruct (decide (i < length row)) as [Hi|Hi].
  - destruct Hp as [-> ->]. destruct (lookup_lt_is_Some_2 row i Hi) as [a ->].
    split_and!; [by auto | done | done].
  - destruct (decide (i < width (padded r))); destruct Hp as [-> ->];
      split_and!; by auto.
Qed.

End TextVectorizationWithTokenizerBehaviour.

(** ** The further properties on the reference framework *)

Module MultiCategoryEncodingBehaviourExamples.
Import MultiCategoryEncoding MultiCategoryEncodingProofs Reference.
Import MultiCategoryEncodingExamples MultiCategoryEncodingBehaviour.

Lemma call_without_layers_witness :
  let self := __init__ ["bad"] ∅ in
  let inputs := Leaf (Tensor 1 [["1"]]) in
  encoding_layers self = [] ∧
  (call self inputs).2
  = match first (flatten inputs) with
    | Raise e => Raise e
    | Ok x =>
        if decide (["bad"] ≠ [] ∧ width x = length ["bad"]) then Raise ValueError
        else Raise InvalidArgumentError
    end.
Proof.
  apply (call_without_layers ["bad"] ∅).
  - apply reach_init.
  - apply Forall_cons_2; [|apply Forall_nil_2].
    intros [Hv| [Hv|Hv]]; discriminate.
Defined.

Lemma call_returns_iff_witness :
  (∃ out, (call example_layer (Leaf example_batch)).2 = Ok out) ↔
  (width example_batch = length (encoding example_layer) ∧
   encoding_layers example_layer ≠ [] ∧
   ∀ k l, encoding_layers example_layer !! k = Some l →
     ∃ col, encode_column l (column k example_batch) = Ok col).
Proof.
  apply (call_returns_iff example_encoding ∅ example_layer
           (Leaf example_batch) example_batch).
  - exact reference_shape_preserving.
  - exact example_reachable.
  - reflexivity.
  - exact example_wf.
Defined.

Lemma call_never_NaN_witness :
  let out := Tensor 3 [[cast_float32 1; cast_float32 2; cast_float32 7];
                       [zero32; cast_float32 3; zero32]] in
  (call example_layer (Leaf example_batch)).2 = Ok out ∧
  ∀ j i v, cell out j i = Some v → is_nan v = false.
Proof.
  split; [vm_compute; reflexivity|].
  apply (call_never_NaN example_encoding ∅ example_layer
           (Leaf example_batch) example_batch).
  - exact reference_shape_preserving.
  - exact example_reachable.
  - reflexivity.
  - exact example_wf.
  - vm_compute. reflexivity.
Defined.

Lemma call_result_shape_witness :
  let out := Tensor 3 [[cast_float32 1; cast_float32 2; cast_float32 7];
                       [zero32; cast_float32 3; zero32]] in
  wf out ∧ batch_size out = batch_size example_batch ∧
  width out = length (filter valid example_encoding) ∧
  width out ≤ width example_batch.
Proof.
  apply (call_result_shape example_encoding ∅ example_layer
           (Leaf example_batch) example_batch).
  - exact reference_shape_preserving.
  - exact example_reachable.
  - reflexivity.
  - exact example_wf.
  - vm_compute. reflexivity.
Defined.


Lemma no_int_nothing_to_fit_witness :
  let self := __init__ ["none"; "one-hot"] ∅ in
  let data := [Tensor 0 [[]]; Tensor 5 []] in
  build self [2] = self ∧ adapt self data = (self, Ok ()).
Proof.
  apply (no_int_nothing_to_fit ["none"; "one-hot"] ∅).
  - repeat first [apply Forall_nil_2 | apply Forall_cons_2]; discriminate.
  - apply reach_init.
Defined.

Lemma adapt_other_columns_witness :
  let self := __init__ example_encoding ∅ in
  let data' := [Tensor 3 [["9"; "b"; "nan"]; ["8"; "a"; "0"]]] in
  (adapt self [example_batch]).1 = (adapt self data').1.
Proof.
  apply (adapt_other_columns (__init__ example_encoding ∅) [example_batch]
           [Tensor 3 [["9"; "b"; "nan"]; ["8"; "a"; "0"]]]).
  - reflexivity.
  - reflexivity.
  - intros [|[|[|k]]] layer Hk; [discriminate Hk | reflexivity | discriminate Hk
                                | discriminate Hk].
Defined.

Lemma call_numeric_table_witness :
  let enc := ["none"; "one-hot"] in
  let x := Tensor 2 [["1"; "nan"]; ["nan"; "2"]] in
  (wf x ∧ width x = length enc) ∧
  ∀ out, (call (__init__ enc ∅) (Leaf x)).2 = Ok out ↔
         ∃ number, tensor_traverse to_number x = Ok number ∧
                   out = tensor_map impute_value number.
Proof.
  split; [split; [repeat constructor | reflexivity]|].
  apply (call_numeric_table ["none"; "one-hot"] ∅ (__init__ ["none"; "one-hot"] ∅)
           (Leaf (Tensor 2 [["1"; "nan"]; ["nan"; "2"]]))).
  - repeat first [apply Forall_nil_2 | apply Forall_cons_2]; auto.
  - discriminate.
  - apply reach_init.
  - reflexivity.
  - repeat constructor.
  - reflexivity.
Defined.

Lemma from_config_unfitted_witness :
  ∃ self',
    from_config (get_config example_layer) = Ok self' ∧
    encoding_layers self' = encoding_layers (__init__ example_encoding ∅) ∧
    Forall (λ l, l = None ∨ l = Some sl_new) (encoding_layers self').
Proof.
  apply (from_config_unfitted example_encoding ∅ example_layer).
  exact example_reachable.
Defined.

(** The vocabulary [adapt] gave the example layer is not in the layer
    rebuilt from its configuration. *)
Example from_config_example :
  (λ self' : t, map (fmap sl_vocabulary) (encoding_layers self'))
    <$> from_config (get_config example_layer)
  = Ok [None; Some []; None].
Proof. by vm_compute. Qed.

End MultiCategoryEncodingBehaviourExamples.

Module TextVectorizationWithTokenizerBehaviourExamples.
Import TextVectorizationWithTokenizer TextVectorizationWithTokenizerBehaviour.

Lemma index_from_range (i : Z) (vocabulary : list string) (s : string) :
  (Reference.index_from i vocabulary s = 1
   ∨ i ≤ Reference.index_from i vocabulary s < i + Z.of_nat (length vocabulary))%Z.
Proof.
  revert i. induction vocabulary as [|v vocabulary IH]; intros i; simpl; [by left|].
  destruct (String.eqb v s); [right; lia|].
  destruct (IH (i + 1)%Z) as [Hu|Hr]; [by left | right; lia].
Qed.

Lemma call_rectangular_witness :
  let self := __init__ Reference.tokenizer in
  let input := Reference.example_sentences in
  input ≠ [] ∧
  ∃ (input_word_ids input_mask input_type_ids : tensor Z),
    Reference.example_inputs !! "input_word_ids" = Some input_word_ids ∧
    Reference.example_inputs !! "input_mask" = Some input_mask ∧
    Reference.example_inputs !! "input_type_ids" = Some input_type_ids ∧
    wf input_word_ids ∧ wf input_mask ∧ wf input_type_ids ∧
    ∃ j s, input !! j = Some s ∧
      rows input_word_ids !! j
      = Some (convert_tokens_to_ids (tokenizer self) ["[CLS]"]
              ++ encode_sentence self s) ∧
      rows input_mask !! j = Some (replicate (width input_word_ids) 1%Z).
Proof.
  apply (call_rectangular (__init__ Reference.tokenizer)
           Reference.example_sentences Reference.example_inputs).
  vm_compute. reflexivity.
Defined.

Lemma call_token_by_token_witness :
  let self := __init__ Reference.tokenizer in
  let input := Reference.example_sentences in
  ∃ (inputs : gmap string (tensor Z)) (input_word_ids input_mask : tensor Z),
    call self input = Ok inputs ∧
    inputs !! "input_word_ids" = Some input_word_ids ∧
    inputs !! "input_mask" = Some input_mask ∧
    width input_word_ids
    = max_list (map (λ s, length (tokenize (tokenizer self) s) + 2) input) ∧
    ∀ j s, input !! j = Some s →
      let tokens := tokenize (tokenizer self) s in
      let n := length tokens in
      rows input_word_ids !! j
      = Some (Reference.token_id "[CLS]" :: map Reference.token_id tokens
              ++ Reference.token_id "[SEP]"
              :: replicate (width input_word_ids - (n + 2)) 0%Z) ∧
      rows input_mask !! j
      = Some (replicate (n + 2) 1%Z
              ++ replicate (width input_word_ids - (n + 2)) 0%Z).
Proof.
  apply (call_token_by_token (__init__ Reference.tokenizer) Reference.token_id
           Reference.example_sentences).
  - intros tokens. reflexivity.
  - intros token. unfold Reference.token_id, int32_range.
    pose proof (index_from_range 100 ["[UNK]"; "[CLS]"; "[SEP]"; "hello"; "world"]
                  token) as Hr.
    simpl length in Hr. lia.
  - discriminate.
Defined.

Lemma call_mask_marks_padding_witness :
  ∃ (input_word_ids input_mask : tensor Z),
    Reference.example_inputs !! "input_word_ids" = Some input_word_ids ∧
    Reference.example_inputs !! "input_mask" = Some input_mask ∧
    ∀ j i,
      (cell input_mask j i = None ∨ cell input_mask j i = Some 0%Z ∨
       cell input_mask j i = Some 1%Z) ∧
      (cell input_mask j i = None ↔ cell input_word_ids j i = None) ∧
      (cell input_mask j i = Some 0%Z → cell input_word_ids j i = Some 0%Z).
Proof.
  apply (call_mask_marks_padding (__init__ Reference.tokenizer)
           Reference.example_sentences Reference.example_inputs).
  vm_compute. reflexivity.
Defined.

End TextVectorizationWithTokenizerBehaviourExamples.
